(** * Logger_simple: a level-filtered, mutex-guarded file logger (src/log.hpp)

    The development embeds the single header [log.hpp] shallowly:

    - [LogLevel] is the [enum class]; its values are kept as the underlying
      integers so that a value outside the four enumerators (reachable by a
      cast only) can be talked about;
    - the variadic [Args&&...] pack is a list of values, each packed with
      its stream-insertion instance ([Streamable], the role [operator<<]
      plays for the template);
    - the outside world (file system, [std::cerr], the wall clock) is an
      explicit [World] threaded through a small state monad; every
      insertion into the log file and every mutex operation is also
      recorded in a trace, so that "nothing was locked" or "n insertions
      happened" are statements about the model;
    - the concurrent behaviour is a step relation over threads that each
      run one call of the public [log], one source statement per step
      (reading the clock and formatting the header count as one step).

    Not modelled: the [ofstream]'s internal buffer (every call ends in
    [std::endl], so the file is up to date whenever a call has returned),
    stream manipulators passed as message parts, I/O errors after a
    successful open, and floating-point parts. *)

From Stdlib Require Import ZArith String Ascii List Lia Permutation.
From stdpp Require Import base tactics option list gmap strings pretty.


(** ** The severity enumeration *)

Module LogLevel.
(** [enum class LogLevel { DEBUG, INFO, WARNING, ERROR }]: the underlying
    type is [int] and the enumerators are numbered from zero. *)
Definition t : Type := Z.
Definition DEBUG : t := 0%Z.
Definition INFO : t := 1%Z.
Definition WARNING : t := 2%Z.
Definition ERROR : t := 3%Z.

(** The four declared enumerators. *)
Definition enumerators : list t := [DEBUG; INFO; WARNING; ERROR].

Definition is_enumerator (l : t) : bool :=
  bool_decide (l ∈ enumerators).

(** [a >= b] on the enumeration is the comparison of the underlying
    values. *)
Definition geb (a b : t) : bool := (b <=? a)%Z.
End LogLevel.

(** ** Message parts

    [Streamable T] says that a [T] can be inserted into a [std::ostream]
    with the default formatting flags; [to_text] is the text the insertion
    produces. *)

Class Streamable (T : Type) : Type := to_text : T → string.

(** [const char*] and [std::string]: the characters themselves. *)
#[export] Instance Streamable_string : Streamable string := λ s, s.
(** [int] (and the other integer types): decimal, a leading minus sign for
    negative numbers. *)
#[export] Instance Streamable_int : Streamable Z := λ z, pretty z.
(** [char]: the character. *)
#[export] Instance Streamable_char : Streamable ascii := λ c, String c EmptyString.
(** [bool] without [boolalpha]: 1 or 0. *)
#[export] Instance Streamable_bool : Streamable bool := λ b, if b then "1" else "0".

(** One element of the argument pack: a value together with its
    insertion operator. *)
Inductive Arg : Type :=
  | arg {T : Type} `{Streamable T} (value : T).

Definition Args : Type := list Arg.

Definition arg_text (a : Arg) : string :=
  match a with arg v => to_text v end.

(** The text of a whole pack, in order, nothing in between. *)
Definition args_text (args : Args) : string :=
  foldr (λ a acc, arg_text a +:+ acc) "" args.

(** ** Broken-down time and [std::put_time] *)

(** The fields of [std::tm] the format string reads. *)
Record tm : Type := mk_tm {
  tm_sec : Z; tm_min : Z; tm_hour : Z;
  tm_mday : Z; tm_mon : Z; tm_year : Z
}.

(** A conversion specifier of width two ([%m %d %H %M %S]): zero padded. *)
Definition pad2 (n : Z) : string :=
  if (0 <=? n)%Z && (n <? 10)%Z then "0" +:+ pretty n else pretty n.

(** [std::put_time(&tm, "%Y-%m-%d %H:%M:%S")]: [%Y] is the year with the
    century, [1900 + tm_year]; [%m] is [tm_mon + 1]. *)
Definition put_time (t : tm) : string :=
  pretty (1900 + tm_year t)%Z +:+ "-" +:+ pad2 (tm_mon t + 1)%Z +:+ "-" +:+
  pad2 (tm_mday t) +:+ " " +:+ pad2 (tm_hour t) +:+ ":" +:+
  pad2 (tm_min t) +:+ ":" +:+ pad2 (tm_sec t).

(** What [std::localtime] can return for a date whose year has four
    digits. *)
Definition calendar_tm (t : tm) : Prop :=
  (0 ≤ tm_sec t ≤ 60 ∧ 0 ≤ tm_min t ≤ 59 ∧ 0 ≤ tm_hour t ≤ 23 ∧
   1 ≤ tm_mday t ≤ 31 ∧ 0 ≤ tm_mon t ≤ 11 ∧
   1000 ≤ 1900 + tm_year t ≤ 9999)%Z.

(** The pattern [YYYY-MM-DD HH:MM:SS], checked character by character. *)
Definition is_digit (c : ascii) : bool :=
  (48 <=? nat_of_ascii c)%nat && (nat_of_ascii c <=? 57)%nat.

Definition is_timestamp (s : string) : bool :=
  match list_ascii_of_string s with
  | [y1; y2; y3; y4; s1; m1; m2; s2; d1; d2; s3; h1; h2; s4; n1; n2; s5; c1; c2] =>
      forallb is_digit [y1; y2; y3; y4; m1; m2; d1; d2; h1; h2; n1; n2; c1; c2]
      && bool_decide ([s1; s2; s3; s4; s5] = ["-"; "-"; " "; ":"; ":"]%char)
  | _ => false
  end.

(** ** The world the logger runs in *)

(** What the trace records: the operations on the logger's mutex and the
    insertions ([<<]) performed on a file stream, whether or not the stream
    took them. *)
Inductive event : Type :=
  | EvLock
  | EvUnlock
  | EvInsert (text : string)
  | EvEndl.

Record World : Type := mk_World {
  (** content of every existing file *)
  files : gmap string string;
  (** paths on which [open] fails (missing directory, no permission, ...) *)
  unopenable : gset string;
  (** everything written to [std::cerr] so far *)
  cerr : string;
  (** the local time the n-th reading of the clock returns *)
  localtime : nat → tm;
  (** number of readings of the clock so far *)
  clock_reads : nat;
  (** the operations performed so far, oldest first *)
  trace : list event
}.

(** Content of a file; a file that does not exist has none. *)
Definition content (p : string) (w : World) : string :=
  default "" (files w !! p).

(** The line terminator, the character LF. *)
Definition newline : string := String (ascii_of_nat 10) EmptyString.

(** *** A state monad over the world *)

Definition IO (A : Type) : Type := World → A * World.

#[export] Instance IO_ret : MRet IO := λ A a w, (a, w).
#[export] Instance IO_bind : MBind IO :=
  λ A B k m w, let '(a, w') := m w in k a w'.

Definition emit (e : event) : IO unit :=
  λ w, (tt, mk_World (files w) (unopenable w) (cerr w) (localtime w)
                     (clock_reads w) (trace w ++ [e])).

(** [std::time(nullptr)] followed by [*std::localtime(&now)]. *)
Definition read_localtime : IO tm :=
  λ w, (localtime w (clock_reads w),
        mk_World (files w) (unopenable w) (cerr w) (localtime w)
                 (S (clock_reads w)) (trace w)).

(** [std::cerr << s << std::endl]. *)
Definition cerr_line (s : string) : IO unit :=
  λ w, (tt, mk_World (files w) (unopenable w) (cerr w +:+ s +:+ newline)
                     (localtime w) (clock_reads w) (trace w)).

(** Bytes added at the end of a file. *)
Definition append_file (p s : string) : IO unit :=
  λ w, (tt, mk_World (<[p := content p w +:+ s]> (files w)) (unopenable w)
                     (cerr w) (localtime w) (clock_reads w) (trace w)).

(** ** [std::ofstream] *)

Record ofstream : Type := mk_ofstream {
  is_open : bool;
  (** the file the stream is attached to while it is open *)
  target : string
}.

(** A default-constructed stream. *)
Definition ofstream_closed : ofstream := mk_ofstream false "".

(** [open(name, std::ios_base::app)]: the file is created when it does not
    exist and is left as it is when it does; on failure nothing is created
    and the stream stays closed. *)
Definition ofstream_open_app (name : string) : IO ofstream :=
  λ w, if bool_decide (name ∈ unopenable w)
       then (ofstream_closed, w)
       else (mk_ofstream true name,
             mk_World (<[name := content name w]> (files w)) (unopenable w)
                      (cerr w) (localtime w) (clock_reads w) (trace w)).

Definition ofstream_close (f : ofstream) : ofstream :=
  mk_ofstream false (target f).

(** [stream << text]. A stream that is not open takes nothing. *)
Definition insert_text (f : ofstream) (text : string) : IO unit :=
  emit (EvInsert text);;
  if is_open f then append_file (target f) text else mret tt.

(** [stream << std::endl]: the newline character, then a flush. *)
Definition endl (f : ofstream) : IO unit :=
  emit EvEndl;;
  if is_open f then append_file (target f) newline else mret tt.

(** ** The [Logger] class *)

(** The data members. The mutex has no state of its own in a sequential
    run (it is free between two calls); its acquisitions and releases are
    the [EvLock] and [EvUnlock] events of the trace. *)
Record Logger : Type := mk_Logger {
  logLevel : LogLevel.t;
  logFileName : string;
  logFile : ofstream
}.

(** [Logger::Logger(logFileName, level = LogLevel::INFO)]. *)
Definition Logger_ctor (name : string) (level : LogLevel.t) : IO Logger :=
  f ← ofstream_open_app name;
  (if negb (is_open f) then cerr_line "Error opening log file." else mret tt);;
  mret (mk_Logger level name f).

(** The default argument of the constructor. *)
Definition Logger_ctor_default (name : string) : IO Logger :=
  Logger_ctor name LogLevel.INFO.

(** [Logger::~Logger()]. *)
Definition Logger_dtor (this : Logger) : IO Logger :=
  mret (if is_open (logFile this)
        then mk_Logger (logLevel this) (logFileName this)
                       (ofstream_close (logFile this))
        else this).

(** [Logger::setLogLevel]. *)
Definition setLogLevel (level : LogLevel.t) (this : Logger) : IO Logger :=
  mret (mk_Logger level (logFileName this) (logFile this)).

(** [Logger::logLevelToString]: the [switch] over the four enumerators and
    the [return ""] after it. *)
Definition logLevelToString (level : LogLevel.t) : string :=
  match level with
  | 0%Z => "DEBUG"
  | 1%Z => "INFO"
  | 2%Z => "WARNING"
  | 3%Z => "ERROR"
  | _ => ""
  end.

(** [Logger::logMessage(stream, value, args...)] and its zero-argument
    overload: one insertion per element of the pack, first to last. *)
Fixpoint logMessage (stream : ofstream) (args : Args) : IO unit :=
  match args with
  | [] => mret tt
  | value :: rest =>
      insert_text stream (arg_text value);;
      logMessage stream rest
  end.

(** The private overload [Logger::log(const std::string& message, args...)]:
    the lock guard lives until the function returns. *)
Definition log_impl (message : string) (args : Args) (this : Logger) : IO Logger :=
  emit EvLock;;
  (if is_open (logFile this)
   then insert_text (logFile this) message;;
        logMessage (logFile this) args;;
        endl (logFile this)
   else mret tt);;
  emit EvUnlock;;
  mret this.

(** The header the public [log] builds in its string stream. *)
Definition header (t : tm) (level : LogLevel.t) (file : string) (line : Z) : string :=
  put_time t +:+ " [" +:+ logLevelToString level +:+ "] " +:+
  file +:+ ":" +:+ to_text line +:+ " - ".

(** The public [Logger::log(level, file, line, args...)]. *)
Definition log (level : LogLevel.t) (file : string) (line : Z) (args : Args)
    (this : Logger) : IO Logger :=
  if LogLevel.geb level (logLevel this)
  then t ← read_localtime;
       log_impl (header t level file line) args this
  else mret this.

Definition debug (file : string) (line : Z) (args : Args) (this : Logger) : IO Logger :=
  log LogLevel.DEBUG file line args this.

Definition info (file : string) (line : Z) (args : Args) (this : Logger) : IO Logger :=
  log LogLevel.INFO file line args this.

Definition warning (file : string) (line : Z) (args : Args) (this : Logger) : IO Logger :=
  log LogLevel.WARNING file line args this.

Definition error (file : string) (line : Z) (args : Args) (this : Logger) : IO Logger :=
  log LogLevel.ERROR file line args this.

(** The line a call that passes the filter adds to an open log file. *)
Definition log_line (t : tm) (level : LogLevel.t) (file : string) (line : Z)
    (args : Args) : string :=
  header t level file line +:+ args_text args +:+ newline.

(** ** The public logging operations, and sequences of calls *)

(** The five public ways to log: the generic [log] at any level and the
    four entry points with their fixed level. *)
Inductive entry : Type :=
  | ViaLog (level : LogLevel.t)
  | ViaDebug
  | ViaInfo
  | ViaWarning
  | ViaError.

Definition entry_level (e : entry) : LogLevel.t :=
  match e with
  | ViaLog level => level
  | ViaDebug => LogLevel.DEBUG
  | ViaInfo => LogLevel.INFO
  | ViaWarning => LogLevel.WARNING
  | ViaError => LogLevel.ERROR
  end.

Definition call_entry (e : entry) :
    string → Z → Args → Logger → IO Logger :=
  match e with
  | ViaLog level => log level
  | ViaDebug => debug
  | ViaInfo => info
  | ViaWarning => warning
  | ViaError => error
  end.

(** One call a client makes on a live logger. *)
Inductive call : Type :=
  | CallLog (e : entry) (file : string) (line : Z) (args : Args)
  | CallSetLogLevel (level : LogLevel.t).

Definition run_call (c : call) (this : Logger) : IO Logger :=
  match c with
  | CallLog e file line args => call_entry e file line args this
  | CallSetLogLevel level => setLogLevel level this
  end.

Fixpoint run_calls (cs : list call) (this : Logger) : IO Logger :=
  match cs with
  | [] => mret this
  | c :: rest => this' ← run_call c this; run_calls rest this'
  end.

(** The lines a sequence of calls is expected to emit on an open file:
    [threshold] is the minimum level in force, [reads] the number of clock
    readings made so far. A call that passes the filter reads the clock
    once. *)
Fixpoint expected_lines (clock : nat → tm) (cs : list call)
    (threshold : LogLevel.t) (reads : nat) : list string :=
  match cs with
  | [] => []
  | CallSetLogLevel level :: rest => expected_lines clock rest level reads
  | CallLog e file line args :: rest =>
      if LogLevel.geb (entry_level e) threshold
      then log_line (clock reads) (entry_level e) file line args
           :: expected_lines clock rest threshold (S reads)
      else expected_lines clock rest threshold reads
  end.

(** Texts one after the other. *)
Definition join (lines : list string) : string :=
  foldr String.append "" lines.

(** The life of one logger: constructed on [name], used, destroyed. *)
Definition session (name : string) (level : LogLevel.t) (cs : list call) : IO unit :=
  lg ← Logger_ctor name level;
  lg ← run_calls cs lg;
  Logger_dtor lg;;
  mret tt.

(** Successive loggers on the same path. *)
Fixpoint sessions (name : string) (ss : list (LogLevel.t * list call)) : IO unit :=
  match ss with
  | [] => mret tt
  | (level, cs) :: rest => session name level cs;; sessions name rest
  end.

Fixpoint sessions_lines (clock : nat → tm) (ss : list (LogLevel.t * list call))
    (reads : nat) : list string :=
  match ss with
  | [] => []
  | (level, cs) :: rest =>
      let ls := expected_lines clock cs level reads in
      ls ++ sessions_lines clock rest (reads + length ls)
  end.

(** ** Threads calling the logger concurrently

    Each thread runs one call of the public [log] (an entry point such as
    [error] only forwards to it). A thread advances one source statement
    at a time and the statements of different threads interleave in any
    order; constructing the [std::lock_guard] is possible only while no
    thread holds the mutex. The logger object is shared and, with no
    [setLogLevel] running, constant. *)

Module Concurrent.

(** Where a thread stands: the statement it executes next and the locals
    that are live there. *)
Inductive pc : Type :=
  (** [if (level >= logLevel)] *)
  | AtFilter (level : LogLevel.t) (file : string) (line : Z) (args : Args)
  (** reading the clock and building the header in [ss] *)
  | AtFormat (level : LogLevel.t) (file : string) (line : Z) (args : Args)
  (** [std::lock_guard<std::mutex> lock(mutex)] *)
  | AtLock (message : string) (args : Args)
  (** [if (logFile.is_open())] *)
  | AtGuard (message : string) (args : Args)
  (** [logFile << message] *)
  | AtMessage (message : string) (args : Args)
  (** inside [logMessage], [rest] still to be inserted *)
  | AtArgs (message : string) (args : Args) (rest : Args)
  (** [logFile << std::endl] *)
  | AtEndl (message : string) (args : Args)
  (** end of the scope of the lock guard *)
  | AtUnlock (message : string) (args : Args)
  | Returned.

Record config : Type := mk_config {
  threads : list pc;
  (** the thread that holds the mutex, if any *)
  mutex : option nat;
  world : World
}.

(** One statement of thread [i]. [None]: the thread cannot move (it waits
    for the mutex, or it has returned). *)
Definition thread_step (this : Logger) (i : nat) (p : pc)
    (m : option nat) (w : World) : option (pc * option nat * World) :=
  match p with
  | AtFilter level file line args =>
      if LogLevel.geb level (logLevel this)
      then Some (AtFormat level file line args, m, w)
      else Some (Returned, m, w)
  | AtFormat level file line args =>
      let '(t, w') := read_localtime w in
      Some (AtLock (header t level file line) args, m, w')
  | AtLock message args =>
      match m with
      | None => Some (AtGuard message args, Some i, (emit EvLock w).2)
      | Some _ => None
      end
  | AtGuard message args =>
      if is_open (logFile this)
      then Some (AtMessage message args, m, w)
      else Some (AtUnlock message args, m, w)
  | AtMessage message args =>
      Some (AtArgs message args args, m, (insert_text (logFile this) message w).2)
  | AtArgs message args [] =>
      Some (AtEndl message args, m, w)
  | AtArgs message args (value :: rest) =>
      Some (AtArgs message args rest, m,
            (insert_text (logFile this) (arg_text value) w).2)
  | AtEndl message args =>
      Some (AtUnlock message args, m, (endl (logFile this) w).2)
  | AtUnlock message args =>
      if bool_decide (m = Some i)
      then Some (Returned, None, (emit EvUnlock w).2)
      else None
  | Returned => None
  end.

(** Thread [i] makes its next step. *)
Definition step (this : Logger) (i : nat) (c : config) : option config :=
  match threads c !! i with
  | Some p =>
      match thread_step this i p (mutex c) (world c) with
      | Some (p', m', w') => Some (mk_config (<[i := p']> (threads c)) m' w')
      | None => None
      end
  | None => None
  end.

(** A schedule names the thread that moves at each step. *)
Fixpoint run (this : Logger) (schedule : list nat) (c : config) : option config :=
  match schedule with
  | [] => Some c
  | i :: rest =>
      match step this i c with
      | Some c' => run this rest c'
      | None => None
      end
  end.

Definition is_returned (p : pc) : bool :=
  match p with Returned => true | _ => false end.

Definition all_returned (c : config) : bool := forallb is_returned (threads c).

(** The arguments of one call of [error]. *)
Record error_call : Type := mk_error_call {
  call_file : string;
  call_line : Z;
  call_args : Args
}.

(** N threads, each about to call [error(file, line, args...)]. *)
Definition start_errors (calls : list error_call) (w : World) : config :=
  mk_config
    (map (λ c, AtFilter LogLevel.ERROR (call_file c) (call_line c) (call_args c))
         calls)
    None w.

(** The line of call number [i] when it read the time [t]. *)
Definition line_of (calls : list error_call) (it : nat * tm) : string :=
  match calls !! it.1 with
  | Some c =>
      log_line it.2 LogLevel.ERROR (call_file c) (call_line c) (call_args c)
  | None => ""
  end.

(** *** The invariant of a concurrent run *)

(** The thread is inside the critical section. *)
Definition holds (p : pc) : bool :=
  match p with
  | AtGuard _ _ | AtMessage _ _ | AtArgs _ _ _ | AtEndl _ _ | AtUnlock _ _ => true
  | _ => false
  end.

(** The thread has written its whole line. *)
Definition finished (p : pc) : bool :=
  match p with
  | AtUnlock _ _ | Returned => true
  | _ => false
  end.

(** What the thread has put into the file of the line it is writing. *)
Definition partial_text (p : pc) : string :=
  match p with
  | AtArgs message args rest =>
      message +:+ args_text (take (length args - length rest) args)
  | AtEndl message args => message +:+ args_text args
  | _ => ""
  end.

(** [P] holds of the statement thread [j] is at. *)
Definition at_pc (P : pc → bool) (ths : list pc) (j : nat) : Prop :=
  ∃ q, ths !! j = Some q ∧ P q = true.

(** The locals of a thread agree with the call it was started on. *)
Definition local_ok (c : error_call) (p : pc) : Prop :=
  match p with
  | AtFilter level file line args | AtFormat level file line args =>
      level = LogLevel.ERROR ∧ file = call_file c ∧ line = call_line c ∧
      args = call_args c
  | AtLock message args | AtGuard message args | AtMessage message args
  | AtEndl message args | AtUnlock message args =>
      args = call_args c ∧
      ∃ t, message = header t LogLevel.ERROR (call_file c) (call_line c)
  | AtArgs message args rest =>
      (args = call_args c ∧
       ∃ t, message = header t LogLevel.ERROR (call_file c) (call_line c)) ∧
      ∃ pre, args = pre ++ rest
  | Returned => True
  end.

Definition holder_text (c : config) : string :=
  match mutex c with
  | Some i =>
      match threads c !! i with
      | Some p => partial_text p
      | None => ""
      end
  | None => ""
  end.

(** [written] lists, in the order of their line terminators, the threads
    whose line is complete, each with the time its header shows. *)
Record invariant (this : Logger) (calls : list error_call) (w : World)
    (written : list (nat * tm)) (c : config) : Prop := mk_invariant {
  inv_length : length (threads c) = length calls;
  inv_local : ∀ i p call,
    threads c !! i = Some p → calls !! i = Some call → local_ok call p;
  inv_mutex : ∀ i, mutex c = Some i ↔ at_pc holds (threads c) i;
  inv_written : ∀ i, i ∈ written.*1 ↔ at_pc finished (threads c) i;
  inv_nodup : NoDup written.*1;
  inv_content :
    content (target (logFile this)) (world c) =
    content (target (logFile this)) w +:+
    join (map (line_of calls) written) +:+ holder_text c
}.

(** Number of statements a thread has left at most; every step lowers
    it. *)
Definition remaining (p : pc) : nat :=
  match p with
  | AtFilter _ _ _ args => length args + 8
  | AtFormat _ _ _ args => length args + 7
  | AtLock _ args => length args + 6
  | AtGuard _ args => length args + 5
  | AtMessage _ args => length args + 4
  | AtArgs _ _ rest => length rest + 3
  | AtEndl _ _ => 2
  | AtUnlock _ _ => 1
  | Returned => 0
  end.

Definition remaining_steps (c : config) : nat :=
  sum_list (map remaining (threads c)).

(** Two calls and schedules that interleave them, to try the model on. *)
Definition two_calls : list error_call :=
  [mk_error_call "a.cpp" 10%Z [arg "a"; arg 1%Z; arg "b"];
   mk_error_call "b.cpp" 20%Z [arg "x"]].

(** Thread 1 reads the clock first, thread 0 takes the mutex first. *)
Definition interleaved : list nat :=
  [1; 0; 1; 0; 0; 0; 0; 0; 0; 0; 0; 0; 0; 1; 1; 1; 1; 1; 1; 1].

Definition interleaved_closed : list nat := [0; 1; 0; 1; 0; 0; 0; 1; 1; 1].

End Concurrent.

(** ** Describing what a computation did to the world *)

(** [effect p text evs reads w w']: going from [w] to [w'], [text] was
    added at the end of file [p], no other file changed, the events [evs]
    were performed, the clock was read [reads] times, and nothing else
    happened. *)
Definition effect (p text : string) (evs : list event) (reads : nat)
    (w w' : World) : Prop :=
  content p w' = content p w +:+ text ∧
  (∀ q, q ≠ p → files w' !! q = files w !! q) ∧
  unopenable w' = unopenable w ∧
  cerr w' = cerr w ∧
  localtime w' = localtime w ∧
  clock_reads w' = clock_reads w + reads ∧
  trace w' = trace w ++ evs.

(** The events of one call that reaches an open file. *)
Definition line_events (message : string) (args : Args) : list event :=
  [EvLock; EvInsert message] ++ map (λ a, EvInsert (arg_text a)) args ++
  [EvEndl; EvUnlock].

(** ** Counting lines *)

Definition LF : ascii := ascii_of_nat 10.

(** Number of line terminators in a text. *)
Fixpoint count_newlines (s : string) : nat :=
  match s with
  | EmptyString => 0
  | String c rest =>
      (if bool_decide (c = LF) then 1 else 0) + count_newlines rest
  end.

(** Shapes of the pieces of a time stamp: exactly four, respectively two,
    decimal digits. *)
Definition four_digits (s : string) : bool :=
  match s with
  | String a (String b (String c (String d EmptyString))) =>
      is_digit a && is_digit b && is_digit c && is_digit d
  | _ => false
  end.

Definition two_digits (s : string) : bool :=
  match s with
  | String a (String b EmptyString) => is_digit a && is_digit b
  | _ => false
  end.

(** ** A concrete world to try the model on *)

Definition t0 : tm := mk_tm 0%Z 0%Z 12%Z 1%Z 0%Z 124%Z.

(** A clock that advances by one second at every reading. *)
Definition ticking (n : nat) : tm :=
  mk_tm (Z.of_nat n) 0%Z 12%Z 1%Z 0%Z 124%Z.

Definition w0 : World :=
  mk_World ∅ {["/nonexistent/dir/app.log"]} "" ticking 0 [].

Definition demo : IO Logger :=
  lg ← Logger_ctor_default "my_log.txt";
  lg ← debug "main.cpp" 41%Z [arg "Debug message."] lg;
  lg ← info "main.cpp" 42%Z [arg "Server started on port "; arg 8080%Z] lg;
  error "main.cpp" 43%Z [arg "a"; arg 1%Z; arg "b"] lg.

(** A logger on an openable path and one on an unopenable path, as the
    constructor leaves them in [w0]. *)
Definition open_logger : Logger :=
  mk_Logger LogLevel.INFO "app.log" (mk_ofstream true "app.log").
Definition open_world : World :=
  mk_World {["app.log" := ""]} {["/nonexistent/dir/app.log"]} "" ticking 0 [].

Definition closed_logger : Logger :=
  mk_Logger LogLevel.INFO "/nonexistent/dir/app.log" ofstream_closed.
Definition closed_world : World :=
  mk_World ∅ {["/nonexistent/dir/app.log"]}
           ("Error opening log file." +:+ newline) ticking 0 [].

(** ** Reading decimal numbers back *)

(** The value of a decimal digit. *)
Definition digit_value (c : ascii) : option Z :=
  if is_digit c then Some (Z.of_nat (nat_of_ascii c) - 48)%Z else None.

(** The number a string of decimal digits denotes, read from the left
    with [acc] the value of the digits read so far. *)
Fixpoint digits_value (acc : Z) (s : string) : option Z :=
  match s with
  | EmptyString => Some acc
  | String c rest =>
      match digit_value c with
      | Some d => digits_value (10 * acc + d)%Z rest
      | None => None
      end
  end.

(** An unsigned decimal number: at least one digit, digits only. *)
Definition unsigned_value (s : string) : option Z :=
  match s with
  | EmptyString => None
  | _ => digits_value 0%Z s
  end.

(** A decimal number with an optional minus sign in front. *)
Definition signed_value (s : string) : option Z :=
  match s with
  | String "-"%char rest => Z.opp <$> unsigned_value rest
  | _ => unsigned_value s
  end.

(** [s] is the number [value] written with exactly [width] decimal
    digits. *)
Definition decimal_field (width : nat) (value : Z) (s : string) : Prop :=
  String.length s = width ∧ unsigned_value s = Some value.

Definition decimal_fieldb (width : nat) (value : Z) (s : string) : bool :=
  bool_decide (String.length s = width) &&
  bool_decide (unsigned_value s = Some value).

(** ** Further vocabulary for sequences of calls and for runs *)

(** The discipline of the mutex read along a list of events. [held] says
    whether the mutex is held; it may be taken only when free and released
    only when held, and an insertion into the stream is allowed only while
    it is held. The result is the state at the end, [None] when the
    discipline is broken somewhere. *)
Fixpoint lock_discipline (held : bool) (evs : list event) : option bool :=
  match evs with
  | [] => Some held
  | EvLock :: rest => if held then None else lock_discipline true rest
  | EvUnlock :: rest => if held then lock_discipline false rest else None
  | EvInsert _ :: rest => if held then lock_discipline true rest else None
  | EvEndl :: rest => if held then lock_discipline true rest else None
  end.

(** Number of logging calls of a sequence that pass the filter in force
    when they are made. *)
Fixpoint passing_calls (cs : list call) (threshold : LogLevel.t) : nat :=
  match cs with
  | [] => 0
  | CallSetLogLevel level :: rest => passing_calls rest level
  | CallLog e _ _ _ :: rest =>
      (if LogLevel.geb (entry_level e) threshold then 1 else 0) +
      passing_calls rest threshold
  end.

(** The minimum level in force after a sequence of calls. *)
Fixpoint final_level (cs : list call) (level : LogLevel.t) : LogLevel.t :=
  match cs with
  | [] => level
  | CallSetLogLevel level' :: rest => final_level rest level'
  | CallLog _ _ _ _ :: rest => final_level rest level
  end.

(** The mutex names a thread exactly when that thread is inside the
    critical section. *)
Definition mutex_ok (c : Concurrent.config) : Prop :=
  ∀ i, Concurrent.mutex c = Some i ↔
       Concurrent.at_pc Concurrent.holds (Concurrent.threads c) i.

(** * Properties *)

(** ** The model on concrete calls *)

Example demo_content :
  content "my_log.txt" (demo w0).2 =
  "2024-01-01 12:00:00 [INFO] main.cpp:42 - Server started on port 8080" +:+ newline +:+
  "2024-01-01 12:00:01 [ERROR] main.cpp:43 - a1b" +:+ newline.
Proof. vm_compute. reflexivity. Qed.

Example demo_trace :
  trace (demo w0).2 =
  [EvLock; EvInsert "2024-01-01 12:00:00 [INFO] main.cpp:42 - ";
   EvInsert "Server started on port "; EvInsert "8080"; EvEndl; EvUnlock;
   EvLock; EvInsert "2024-01-01 12:00:01 [ERROR] main.cpp:43 - ";
   EvInsert "a"; EvInsert "1"; EvInsert "b"; EvEndl; EvUnlock].
Proof. vm_compute. reflexivity. Qed.

Example open_logger_constructed :
  Logger_ctor "app.log" LogLevel.INFO w0 = (open_logger, open_world).
Proof. vm_compute. reflexivity. Qed.

Example closed_logger_constructed :
  Logger_ctor "/nonexistent/dir/app.log" LogLevel.INFO w0 =
  (closed_logger, closed_world).
Proof. vm_compute. reflexivity. Qed.

(** ** Strings *)

Lemma string_app_assoc (s1 s2 s3 : string) :
  (s1 +:+ s2) +:+ s3 = s1 +:+ (s2 +:+ s3).
Proof.
  induction s1 as [|c s1 IH]; [reflexivity|].
  change (String c ((s1 +:+ s2) +:+ s3) = String c (s1 +:+ (s2 +:+ s3))).
  by rewrite IH.
Qed.

Lemma string_app_nil_r (s : string) : s +:+ "" = s.
Proof.
  induction s as [|c s IH]; [reflexivity|].
  change (String c (s +:+ "") = String c s). by rewrite IH.
Qed.

Lemma string_app_nil_l (s : string) : "" +:+ s = s.
Proof. reflexivity. Qed.

Lemma args_text_cons (a : Arg) (args : Args) :
  args_text (a :: args) = arg_text a +:+ args_text args.
Proof. reflexivity. Qed.

Lemma args_text_app (xs ys : Args) :
  args_text (xs ++ ys) = args_text xs +:+ args_text ys.
Proof.
  induction xs as [|a xs IH]; [reflexivity|].
  rewrite <- app_comm_cons, !args_text_cons, IH.
  by rewrite string_app_assoc.
Qed.

(** ** Composing effects *)

Ltac io_unfold := unfold mbind, mret, IO_bind, IO_ret in *.

Lemma effect_refl (p : string) (w : World) : effect p "" [] 0 w w.
Proof.
  unfold effect. rewrite string_app_nil_r, app_nil_r, Nat.add_0_r. tauto.
Qed.

Lemma effect_trans (p t1 t2 : string) (e1 e2 : list event) (r1 r2 : nat)
    (w w1 w2 : World) :
  effect p t1 e1 r1 w w1 → effect p t2 e2 r2 w1 w2 →
  effect p (t1 +:+ t2) (e1 ++ e2) (r1 + r2) w w2.
Proof.
  intros (Hc1 & Hf1 & Hu1 & He1 & Hl1 & Hr1 & Ht1)
         (Hc2 & Hf2 & Hu2 & He2 & Hl2 & Hr2 & Ht2).
  unfold effect. repeat split.
  - by rewrite Hc2, Hc1, string_app_assoc.
  - intros q Hq. by rewrite Hf2, Hf1.
  - congruence.
  - congruence.
  - congruence.
  - lia.
  - by rewrite Ht2, Ht1, app_assoc.
Qed.

Lemma effect_trans_eq (p t1 t2 t : string) (e1 e2 e : list event)
    (r1 r2 r : nat) (w w1 w2 : World) :
  effect p t1 e1 r1 w w1 → effect p t2 e2 r2 w1 w2 →
  t = t1 +:+ t2 → e = e1 ++ e2 → r = r1 + r2 →
  effect p t e r w w2.
Proof. intros H1 H2 -> -> ->. by eapply effect_trans. Qed.

Lemma emit_effect (p : string) (e : event) (w : World) :
  effect p "" [e] 0 w (emit e w).2.
Proof.
  unfold effect, emit, content; simpl.
  rewrite string_app_nil_r, Nat.add_0_r. tauto.
Qed.

Lemma append_file_effect (p s : string) (w : World) :
  effect p s [] 0 w (append_file p s w).2.
Proof.
  unfold effect, append_file, content; simpl.
  rewrite lookup_insert_eq, app_nil_r, Nat.add_0_r. simpl.
  repeat split; try done.
  intros q Hq. by rewrite lookup_insert_ne.
Qed.

Lemma read_localtime_effect (p : string) (w : World) :
  (read_localtime w).1 = localtime w (clock_reads w) ∧
  effect p "" [] 1 w (read_localtime w).2.
Proof.
  unfold effect, read_localtime, content; simpl.
  rewrite string_app_nil_r, app_nil_r. repeat split; try done. lia.
Qed.

Lemma insert_text_effect (f : ofstream) (text : string) (w : World) :
  is_open f = true →
  effect (target f) text [EvInsert text] 0 w (insert_text f text w).2.
Proof.
  intros Hopen. unfold insert_text. io_unfold. rewrite Hopen.
  change text with ("" +:+ text) at 1.
  change [EvInsert text] with ([EvInsert text] ++ []).
  change 0 with (0 + 0).
  eapply effect_trans; [apply emit_effect|].
  simpl. apply append_file_effect.
Qed.

Lemma endl_effect (f : ofstream) (w : World) :
  is_open f = true →
  effect (target f) newline [EvEndl] 0 w (endl f w).2.
Proof.
  intros Hopen. unfold endl. io_unfold. rewrite Hopen.
  change newline with ("" +:+ newline) at 1.
  change [EvEndl] with ([EvEndl] ++ []).
  change 0 with (0 + 0).
  eapply effect_trans; [apply emit_effect|].
  simpl. apply append_file_effect.
Qed.

(** ** [logMessage] *)

Lemma logMessage_nil (f : ofstream) (w : World) :
  logMessage f [] w = (tt, w).
Proof. reflexivity. Qed.

Lemma logMessage_cons (f : ofstream) (a : Arg) (rest : Args) (w : World) :
  logMessage f (a :: rest) w = logMessage f rest (insert_text f (arg_text a) w).2.
Proof.
  simpl. io_unfold. by destruct (insert_text f (arg_text a) w) as [[] w1].
Qed.

Lemma logMessage_effect (f : ofstream) (args : Args) (w : World) :
  is_open f = true →
  effect (target f) (args_text args)
         (map (λ a, EvInsert (arg_text a)) args) 0 w (logMessage f args w).2.
Proof.
  intros Hopen. revert w.
  induction args as [|a rest IH]; intros w.
  - rewrite logMessage_nil. apply effect_refl.
  - rewrite logMessage_cons, args_text_cons.
    change (map (λ a0, EvInsert (arg_text a0)) (a :: rest))
      with ([EvInsert (arg_text a)] ++ map (λ a0, EvInsert (arg_text a0)) rest).
    change 0 with (0 + 0).
    eapply effect_trans; [by apply insert_text_effect | apply IH].
Qed.

(** The insertions are performed whatever the state of the stream. *)
Lemma logMessage_trace (f : ofstream) (args : Args) (w : World) :
  trace (logMessage f args w).2 =
  trace w ++ map (λ a, EvInsert (arg_text a)) args.
Proof.
  revert w. induction args as [|a rest IH]; intros w.
  - rewrite logMessage_nil. simpl. by rewrite app_nil_r.
  - rewrite logMessage_cons, IH. simpl.
    unfold insert_text, emit, append_file. io_unfold.
    destruct (is_open f); simpl; by rewrite <- app_assoc.
Qed.

(** ** The private [log] *)

Lemma log_impl_this (message : string) (args : Args) (this : Logger) (w : World) :
  (log_impl message args this w).1 = this.
Proof.
  unfold log_impl. io_unfold.
  destruct (emit EvLock w) as [[] w1].
  destruct (is_open (logFile this)).
  - destruct (insert_text _ _ w1) as [[] w2].
    destruct (logMessage _ _ w2) as [[] w3].
    destruct (endl _ w3) as [[] w4].
    by destruct (emit EvUnlock w4) as [[] w5].
  - by destruct (emit EvUnlock w1) as [[] w5].
Qed.

Lemma log_impl_open (message : string) (args : Args) (this : Logger) (w : World) :
  is_open (logFile this) = true →
  effect (target (logFile this)) (message +:+ args_text args +:+ newline)
         (line_events message args) 0 w (log_impl message args this w).2.
Proof.
  intros Hopen. unfold log_impl. io_unfold. rewrite Hopen.
  pose proof (emit_effect (target (logFile this)) EvLock w) as H1.
  destruct (emit EvLock w) as [[] w1]; simpl in H1.
  pose proof (insert_text_effect (logFile this) message w1 Hopen) as H2.
  destruct (insert_text _ _ w1) as [[] w2]; simpl in H2.
  pose proof (logMessage_effect (logFile this) args w2 Hopen) as H3.
  destruct (logMessage _ _ w2) as [[] w3]; simpl in H3.
  pose proof (endl_effect (logFile this) w3 Hopen) as H4.
  destruct (endl _ w3) as [[] w4]; simpl in H4.
  pose proof (emit_effect (target (logFile this)) EvUnlock w4) as H5.
  destruct (emit EvUnlock w4) as [[] w5]; simpl in *.
  pose proof (effect_trans _ _ _ _ _ _ _ _ _ _ H1
    (effect_trans _ _ _ _ _ _ _ _ _ _ H2
      (effect_trans _ _ _ _ _ _ _ _ _ _ H3
        (effect_trans _ _ _ _ _ _ _ _ _ _ H4 H5)))) as H.
  rewrite string_app_nil_l, string_app_nil_r in H.
  unfold line_events. simpl in *. exact H.
Qed.

(** With the stream closed the guard skips all three insertions: the mutex
    is taken and released and that is all. *)
Lemma log_impl_closed (message : string) (args : Args) (this : Logger) (w : World) :
  is_open (logFile this) = false →
  log_impl message args this w =
  (this, mk_World (files w) (unopenable w) (cerr w) (localtime w)
                  (clock_reads w) (trace w ++ [EvLock; EvUnlock])).
Proof.
  intros Hclosed. unfold log_impl, emit. io_unfold. rewrite Hclosed. simpl.
  by rewrite <- app_assoc.
Qed.

(** ** The public [log] *)

Lemma geb_spec (a b : LogLevel.t) :
  LogLevel.geb a b = true ↔ (a >= b)%Z.
Proof. unfold LogLevel.geb. rewrite Z.leb_le. lia. Qed.

Lemma geb_false (a b : LogLevel.t) :
  LogLevel.geb a b = false ↔ (a < b)%Z.
Proof. unfold LogLevel.geb. rewrite Z.leb_gt. lia. Qed.

Lemma log_filtered (level : LogLevel.t) (file : string) (line : Z)
    (args : Args) (this : Logger) (w : World) :
  LogLevel.geb level (logLevel this) = false →
  log level file line args this w = (this, w).
Proof. intros H. unfold log. by rewrite H. Qed.

Lemma log_this (level : LogLevel.t) (file : string) (line : Z)
    (args : Args) (this : Logger) (w : World) :
  (log level file line args this w).1 = this.
Proof.
  unfold log. destruct (LogLevel.geb _ _); [|done].
  io_unfold. destruct (read_localtime w) as [t w1]. apply log_impl_this.
Qed.

Lemma log_passed_open (level : LogLevel.t) (file : string) (line : Z)
    (args : Args) (this : Logger) (w : World) :
  LogLevel.geb level (logLevel this) = true →
  is_open (logFile this) = true →
  effect (target (logFile this))
         (log_line (localtime w (clock_reads w)) level file line args)
         (line_events (header (localtime w (clock_reads w)) level file line) args)
         1 w (log level file line args this w).2.
Proof.
  intros Hpass Hopen. unfold log. rewrite Hpass. io_unfold.
  destruct (read_localtime_effect (target (logFile this)) w) as [Ht H1].
  destruct (read_localtime w) as [t w1]; simpl in *. subst t.
  pose proof (log_impl_open
    (header (localtime w (clock_reads w)) level file line) args this w1 Hopen) as H2.
  pose proof (effect_trans _ _ _ _ _ _ _ _ _ _ H1 H2) as H.
  rewrite string_app_nil_l in H. simpl in H.
  unfold log_line. exact H.
Qed.

Lemma log_passed_closed (level : LogLevel.t) (file : string) (line : Z)
    (args : Args) (this : Logger) (w : World) :
  LogLevel.geb level (logLevel this) = true →
  is_open (logFile this) = false →
  log level file line args this w =
  (this, mk_World (files w) (unopenable w) (cerr w) (localtime w)
                  (S (clock_reads w)) (trace w ++ [EvLock; EvUnlock])).
Proof.
  intros Hpass Hclosed. unfold log. rewrite Hpass. io_unfold.
  unfold read_localtime. by rewrite log_impl_closed.
Qed.

(** ** Construction and destruction *)

Lemma Logger_ctor_openable (name : string) (level : LogLevel.t) (w : World) :
  name ∉ unopenable w →
  (Logger_ctor name level w).1 = mk_Logger level name (mk_ofstream true name) ∧
  effect name "" [] 0 w (Logger_ctor name level w).2.
Proof.
  intros Hok. unfold Logger_ctor, ofstream_open_app. io_unfold.
  rewrite bool_decide_eq_false_2 by done. simpl. split; [done|].
  unfold effect, content; simpl.
  rewrite lookup_insert_eq, string_app_nil_r, app_nil_r, Nat.add_0_r. simpl.
  repeat split; try done.
  intros q Hq. by rewrite lookup_insert_ne.
Qed.

Lemma Logger_ctor_unopenable (name : string) (level : LogLevel.t) (w : World) :
  name ∈ unopenable w →
  Logger_ctor name level w =
  (mk_Logger level name ofstream_closed,
   mk_World (files w) (unopenable w)
            (cerr w +:+ "Error opening log file." +:+ newline)
            (localtime w) (clock_reads w) (trace w)).
Proof.
  intros Hbad. unfold Logger_ctor, ofstream_open_app. io_unfold.
  by rewrite bool_decide_eq_true_2.
Qed.

Lemma Logger_dtor_world (this : Logger) (w : World) :
  (Logger_dtor this w).2 = w ∧
  is_open (logFile (Logger_dtor this w).1) = false.
Proof.
  unfold Logger_dtor. io_unfold. simpl. split; [done|].
  by destruct (is_open (logFile this)) eqn:E.
Qed.

(** ** Decimal rendering and the time stamp *)

Lemma count_newlines_app (s1 s2 : string) :
  count_newlines (s1 +:+ s2) = count_newlines s1 + count_newlines s2.
Proof.
  induction s1 as [|c s1 IH]; [reflexivity|].
  change (String c s1 +:+ s2) with (String c (s1 +:+ s2)).
  simpl. rewrite IH. lia.
Qed.

Lemma count_newlines_pretty_N_go (x : N) (s : string) :
  count_newlines (pretty_N_go x s) = count_newlines s.
Proof.
  revert s. induction (N.lt_wf_0 x) as [x _ IH]; intros s.
  destruct (decide (x = 0%N)) as [->|Hx].
  - by rewrite pretty_N_go_0.
  - rewrite pretty_N_go_step by lia.
    rewrite IH by (apply N.div_lt; lia).
    unfold pretty_N_char. by repeat case_match.
Qed.

Lemma count_newlines_pretty_N (x : N) : count_newlines (pretty x) = 0.
Proof.
  unfold pretty, pretty_N. case_decide; [reflexivity|].
  apply count_newlines_pretty_N_go.
Qed.

Lemma count_newlines_pretty_Z (z : Z) : count_newlines (pretty z) = 0.
Proof.
  destruct z as [|p|p]; [reflexivity| |].
  - apply (count_newlines_pretty_N (N.pos p)).
  - change (pretty (Z.neg p)) with ("-" +:+ pretty (N.pos p)).
    rewrite count_newlines_app, count_newlines_pretty_N. reflexivity.
Qed.

Lemma count_newlines_pad2 (n : Z) : count_newlines (pad2 n) = 0.
Proof.
  unfold pad2. destruct (_ && _).
  - rewrite count_newlines_app, count_newlines_pretty_Z. reflexivity.
  - apply count_newlines_pretty_Z.
Qed.

Lemma count_newlines_put_time (t : tm) : count_newlines (put_time t) = 0.
Proof.
  unfold put_time.
  rewrite !count_newlines_app, !count_newlines_pad2, count_newlines_pretty_Z.
  reflexivity.
Qed.

Lemma count_newlines_level (level : LogLevel.t) :
  count_newlines (logLevelToString level) = 0.
Proof.
  unfold logLevelToString. by repeat case_match.
Qed.

Lemma count_newlines_header (t : tm) (level : LogLevel.t) (file : string) (line : Z) :
  count_newlines (header t level file line) = count_newlines file.
Proof.
  unfold header, to_text, Streamable_int.
  rewrite !count_newlines_app, count_newlines_put_time, count_newlines_level,
    count_newlines_pretty_Z.
  simpl. lia.
Qed.

(** A line holds one line terminator more than the caller's own texts. *)
Lemma count_newlines_log_line (t : tm) (level : LogLevel.t) (file : string)
    (line : Z) (args : Args) :
  count_newlines (log_line t level file line args) =
  count_newlines file + count_newlines (args_text args) + 1.
Proof.
  unfold log_line. rewrite !count_newlines_app, count_newlines_header.
  change (count_newlines newline) with 1. lia.
Qed.

Lemma pretty_four_digits_range :
  forallb (λ y, four_digits (pretty y)) (seqZ 1000 9000) = true.
Proof. vm_compute. reflexivity. Qed.

Lemma pad2_two_digits_range :
  forallb (λ n, two_digits (pad2 n)) (seqZ 0 100) = true.
Proof. vm_compute. reflexivity. Qed.

Lemma pretty_four_digits (y : Z) :
  (1000 ≤ y ≤ 9999)%Z → four_digits (pretty y) = true.
Proof.
  intros Hy. pose proof pretty_four_digits_range as H.
  rewrite forallb_forall in H. apply H.
  apply list_elem_of_In, elem_of_seqZ. lia.
Qed.

Lemma pad2_two_digits (n : Z) :
  (0 ≤ n ≤ 99)%Z → two_digits (pad2 n) = true.
Proof.
  intros Hn. pose proof pad2_two_digits_range as H.
  rewrite forallb_forall in H. apply H.
  apply list_elem_of_In, elem_of_seqZ. lia.
Qed.

Lemma four_digits_inv (s : string) :
  four_digits s = true →
  ∃ a b c d, s = String a (String b (String c (String d EmptyString))) ∧
    is_digit a = true ∧ is_digit b = true ∧ is_digit c = true ∧ is_digit d = true.
Proof.
  destruct s as [|a [|b [|c [|d [|]]]]]; simpl; try discriminate.
  rewrite !andb_true_iff. intros [[[? ?] ?] ?]. by exists a, b, c, d.
Qed.

Lemma two_digits_inv (s : string) :
  two_digits s = true →
  ∃ a b, s = String a (String b EmptyString) ∧
    is_digit a = true ∧ is_digit b = true.
Proof.
  destruct s as [|a [|b [|]]]; simpl; try discriminate.
  rewrite !andb_true_iff. intros [? ?]. by exists a, b.
Qed.

(** For a calendar date the rendering has the shape YYYY-MM-DD HH:MM:SS. *)
Lemma put_time_is_timestamp (t : tm) :
  calendar_tm t → is_timestamp (put_time t) = true.
Proof.
  intros (Hs & Hm & Hh & Hd & Hmo & Hy).
  destruct (four_digits_inv _ (pretty_four_digits (1900 + tm_year t) Hy))
    as (y1 & y2 & y3 & y4 & Ey & ? & ? & ? & ?).
  destruct (two_digits_inv _ (pad2_two_digits (tm_mon t + 1) ltac:(lia)))
    as (m1 & m2 & Em & ? & ?).
  destruct (two_digits_inv _ (pad2_two_digits (tm_mday t) ltac:(lia)))
    as (d1 & d2 & Ed & ? & ?).
  destruct (two_digits_inv _ (pad2_two_digits (tm_hour t) ltac:(lia)))
    as (h1 & h2 & Eh & ? & ?).
  destruct (two_digits_inv _ (pad2_two_digits (tm_min t) ltac:(lia)))
    as (n1 & n2 & En & ? & ?).
  destruct (two_digits_inv _ (pad2_two_digits (tm_sec t) ltac:(lia)))
    as (c1 & c2 & Ec & ? & ?).
  unfold put_time. rewrite Ey, Em, Ed, Eh, En, Ec.
  unfold is_timestamp. cbv [String.append list_ascii_of_string forallb].
  rewrite bool_decide_eq_true_2 by reflexivity.
  repeat match goal with H : is_digit _ = true |- _ => rewrite H; clear H end.
  reflexivity.
Qed.

(** ** Entry points and sequences of calls *)

Lemma call_entry_log (e : entry) : call_entry e = log (entry_level e).
Proof. by destruct e. Qed.

Lemma join_app (xs ys : list string) : join (xs ++ ys) = join xs +:+ join ys.
Proof.
  induction xs as [|x xs IH]; [reflexivity|].
  simpl. by rewrite IH, string_app_assoc.
Qed.

Lemma run_calls_cons (c : call) (rest : list call) (this : Logger) (w : World) :
  run_calls (c :: rest) this w =
  run_calls rest (run_call c this w).1 (run_call c this w).2.
Proof. simpl. io_unfold. by destruct (run_call c this w). Qed.

Lemma run_call_logFile (c : call) (this : Logger) (w : World) :
  logFile (run_call c this w).1 = logFile this ∧
  logFileName (run_call c this w).1 = logFileName this.
Proof.
  destruct c as [e file line args|level]; simpl.
  - by rewrite call_entry_log, log_this.
  - done.
Qed.

Lemma run_calls_logFile (cs : list call) (this : Logger) (w : World) :
  logFile (run_calls cs this w).1 = logFile this ∧
  logFileName (run_calls cs this w).1 = logFileName this.
Proof.
  revert this w. induction cs as [|c rest IH]; intros this w; [done|].
  rewrite run_calls_cons.
  destruct (IH (run_call c this w).1 (run_call c this w).2) as [-> ->].
  apply run_call_logFile.
Qed.

(** On an open file a sequence of calls adds exactly the expected lines. *)
Lemma run_calls_open (cs : list call) (this : Logger) (w : World) :
  is_open (logFile this) = true →
  ∃ evs,
    effect (target (logFile this))
      (join (expected_lines (localtime w) cs (logLevel this) (clock_reads w)))
      evs
      (length (expected_lines (localtime w) cs (logLevel this) (clock_reads w)))
      w (run_calls cs this w).2.
Proof.
  revert this w. induction cs as [|c rest IH]; intros this w Hopen.
  - exists []. apply effect_refl.
  - rewrite run_calls_cons. destruct c as [e file line args|level]; simpl.
    + rewrite call_entry_log, log_this.
      destruct (LogLevel.geb (entry_level e) (logLevel this)) eqn:Hpass.
      * pose proof (log_passed_open _ file line args this w Hpass Hopen) as H1.
        destruct (IH this (log (entry_level e) file line args this w).2 Hopen)
          as [evs H2].
        pose proof H1 as (Hc & Hf & Hu & He & Hl & Hr & Ht).
        rewrite Hl, Hr, Nat.add_1_r in H2.
        eexists.
        eapply effect_trans_eq; [exact H1 | exact H2 | reflexivity..].
      * rewrite log_filtered by done. apply (IH this w Hopen).
    + apply (IH (mk_Logger level (logFileName this) (logFile this)) w Hopen).
Qed.

(** On a closed handle no sequence of calls reaches the file system or
    [std::cerr]. *)
Lemma run_calls_closed (cs : list call) (this : Logger) (w : World) :
  is_open (logFile this) = false →
  files (run_calls cs this w).2 = files w ∧
  cerr (run_calls cs this w).2 = cerr w ∧
  unopenable (run_calls cs this w).2 = unopenable w.
Proof.
  revert this w. induction cs as [|c rest IH]; intros this w Hclosed; [done|].
  rewrite run_calls_cons. destruct c as [e file line args|level]; simpl.
  - rewrite call_entry_log, log_this.
    destruct (LogLevel.geb (entry_level e) (logLevel this)) eqn:Hpass.
    + rewrite log_passed_closed by done. simpl.
      by destruct (IH this (mk_World (files w) (unopenable w) (cerr w) (localtime w)
        (S (clock_reads w)) (trace w ++ [EvLock; EvUnlock])) Hclosed) as (-> & -> & ->).
    + rewrite log_filtered by done. apply (IH this w Hclosed).
  - apply (IH (mk_Logger level (logFileName this) (logFile this)) w Hclosed).
Qed.

Lemma session_world (name : string) (level : LogLevel.t) (cs : list call) (w : World) :
  (session name level cs w).2 =
  (run_calls cs (Logger_ctor name level w).1 (Logger_ctor name level w).2).2.
Proof.
  unfold session. io_unfold.
  destruct (Logger_ctor name level w) as [lg w1]. simpl.
  by destruct (run_calls cs lg w1) as [lg' w2].
Qed.

Lemma session_openable (name : string) (level : LogLevel.t) (cs : list call) (w : World) :
  name ∉ unopenable w →
  ∃ evs,
    effect name
      (join (expected_lines (localtime w) cs level (clock_reads w)))
      evs (length (expected_lines (localtime w) cs level (clock_reads w)))
      w (session name level cs w).2.
Proof.
  intros Hok. rewrite session_world.
  destruct (Logger_ctor_openable name level w Hok) as [Hlg H1].
  destruct (run_calls_open cs (Logger_ctor name level w).1
              (Logger_ctor name level w).2) as [evs H2].
  { by rewrite Hlg. }
  pose proof H1 as (Hc & Hf & Hu & He & Hl & Hr & Ht).
  rewrite Hl, Hr, Nat.add_0_r in H2.
  rewrite Hlg in H2 |- *. simpl in H2.
  exists evs.
  eapply effect_trans_eq; [exact H1 | exact H2 | reflexivity..].
Qed.

Lemma sessions_cons (name : string) (level : LogLevel.t) (cs : list call)
    (rest : list (LogLevel.t * list call)) (w : World) :
  (sessions name ((level, cs) :: rest) w).2 =
  (sessions name rest (session name level cs w).2).2.
Proof. simpl. io_unfold. by destruct (session name level cs w). Qed.

Lemma sessions_openable (name : string) (ss : list (LogLevel.t * list call)) (w : World) :
  name ∉ unopenable w →
  ∃ evs,
    effect name (join (sessions_lines (localtime w) ss (clock_reads w)))
      evs (length (sessions_lines (localtime w) ss (clock_reads w)))
      w (sessions name ss w).2.
Proof.
  revert w. induction ss as [|[level cs] rest IH]; intros w Hok.
  - exists []. apply effect_refl.
  - rewrite sessions_cons.
    destruct (session_openable name level cs w Hok) as [evs1 H1].
    pose proof H1 as (Hc & Hf & Hu & He & Hl & Hr & Ht).
    destruct (IH (session name level cs w).2) as [evs2 H2].
    { by rewrite Hu. }
    rewrite Hl, Hr in H2.
    exists (evs1 ++ evs2).
    eapply effect_trans_eq; [exact H1 | exact H2 | simpl..].
    + apply join_app.
    + reflexivity.
    + apply length_app.
Qed.

Lemma args_text_concat (args : Args) :
  args_text args = String.concat "" (map arg_text args).
Proof.
  induction args as [|a rest IH]; [reflexivity|].
  rewrite args_text_cons, IH.
  destruct rest as [|b rest]; [apply string_app_nil_r | reflexivity].
Qed.

Lemma le_geb (a b : LogLevel.t) : (b ≤ a)%Z → LogLevel.geb a b = true.
Proof. intros H. apply geb_spec. lia. Qed.

Lemma lt_geb (a b : LogLevel.t) : (a < b)%Z → LogLevel.geb a b = false.
Proof. intros H. by apply geb_false. Qed.

(** ** Reading the pieces of a line back *)

Lemma digit_value_pretty_N_char (d : N) :
  (d < 10)%N → digit_value (pretty_N_char d) = Some (Z.of_N d).
Proof.
  intros Hd.
  assert (d = 0 ∨ d = 1 ∨ d = 2 ∨ d = 3 ∨ d = 4 ∨ d = 5 ∨ d = 6 ∨ d = 7 ∨
          d = 8 ∨ d = 9)%N as H by lia.
  repeat (destruct H as [->|H]; [reflexivity|]). by subst.
Qed.

Lemma digits_value_pretty_N_go (x : N) (s : string) (acc : Z) :
  ∃ k : nat,
    digits_value acc (pretty_N_go x s) =
    digits_value (acc * 10 ^ Z.of_nat k + Z.of_N x)%Z s.
Proof.
  revert s acc. induction (N.lt_wf_0 x) as [x _ IH]; intros s acc.
  destruct (decide (x = 0%N)) as [->|Hx].
  - exists 0. rewrite pretty_N_go_0. f_equal. simpl. lia.
  - rewrite pretty_N_go_step by lia.
    destruct (IH (x `div` 10)%N ltac:(apply N.div_lt; lia)
                 (String (pretty_N_char (x `mod` 10)) s) acc) as [k Hk].
    exists (S k). rewrite Hk. simpl.
    rewrite digit_value_pretty_N_char by (apply N.mod_lt; lia).
    f_equal.
    rewrite Nat2Z.inj_succ, Z.pow_succ_r by lia.
    pose proof (N.div_mod x 10 ltac:(lia)) as Hdm.
    apply (f_equal Z.of_N) in Hdm.
    rewrite N2Z.inj_add, N2Z.inj_mul in Hdm. simpl in Hdm. lia.
Qed.

Lemma pretty_N_go_nonempty (x : N) (c : ascii) (s : string) :
  pretty_N_go x (String c s) ≠ "".
Proof.
  revert c s. induction (N.lt_wf_0 x) as [x _ IH]; intros c s.
  destruct (decide (x = 0%N)) as [->|Hx].
  - by rewrite pretty_N_go_0.
  - rewrite pretty_N_go_step by lia. apply IH. apply N.div_lt; lia.
Qed.

Lemma unsigned_value_pretty_N (x : N) :
  unsigned_value (pretty x) = Some (Z.of_N x) ∧
  ∃ c rest, pretty x = String c rest ∧ c ≠ "-"%char.
Proof.
  unfold pretty, pretty_N. case_decide as Hx.
  - subst. split; [reflexivity|]. by exists "0"%char, "".
  - destruct (digits_value_pretty_N_go x "" 0) as [k Hk].
    assert (∃ c rest, pretty_N_go x "" = String c rest ∧ c ≠ "-"%char)
      as (c & rest & Hc & Hne).
    { destruct (pretty_N_go x "") as [|c rest] eqn:E.
      - rewrite pretty_N_go_step in E by lia.
        by apply pretty_N_go_nonempty in E.
      - exists c, rest. split; [done|]. intros ->.
        by apply (pretty_N_go_ne_dash x "" rest) in E. }
    split; [|by exists c, rest].
    unfold unsigned_value. rewrite Hc. rewrite <- Hc, Hk. simpl; f_equal; lia.
Qed.

(** The decimal text of an [int] reads back as that [int]. *)
Lemma signed_value_pretty (z : Z) : signed_value (pretty z) = Some z.
Proof.
  destruct z as [|p|p].
  - reflexivity.
  - destruct (unsigned_value_pretty_N (N.pos p)) as [Hv (c & rest & Hc & Hne)].
    change (pretty (Z.pos p)) with (pretty (N.pos p)).
    rewrite Hc in Hv |- *. unfold signed_value.
    destruct c as [[] [] [] [] [] [] [] []]; first [exact Hv | done].
  - destruct (unsigned_value_pretty_N (N.pos p)) as [Hv _].
    change (pretty (Z.neg p)) with (String "-"%char (pretty (N.pos p))).
    unfold signed_value. rewrite Hv. reflexivity.
Qed.

Lemma year_field_range :
  forallb (λ y, decimal_fieldb 4 y (pretty y)) (seqZ 1000 9000) = true.
Proof. vm_compute. reflexivity. Qed.

Lemma pad2_field_range :
  forallb (λ n, decimal_fieldb 2 n (pad2 n)) (seqZ 0 100) = true.
Proof. vm_compute. reflexivity. Qed.

Lemma decimal_fieldb_true (width : nat) (value : Z) (s : string) :
  decimal_fieldb width value s = true → decimal_field width value s.
Proof.
  unfold decimal_fieldb, decimal_field. rewrite andb_true_iff.
  intros [H1 H2]. by apply bool_decide_eq_true in H1, H2.
Qed.

Lemma year_field (y : Z) :
  (1000 ≤ y ≤ 9999)%Z → decimal_field 4 y (pretty y).
Proof.
  intros Hy. pose proof year_field_range as H.
  rewrite forallb_forall in H. apply decimal_fieldb_true, H.
  apply list_elem_of_In, elem_of_seqZ. lia.
Qed.

Lemma pad2_field (n : Z) :
  (0 ≤ n ≤ 99)%Z → decimal_field 2 n (pad2 n).
Proof.
  intros Hn. pose proof pad2_field_range as H.
  rewrite forallb_forall in H. apply decimal_fieldb_true, H.
  apply list_elem_of_In, elem_of_seqZ. lia.
Qed.

(** The tag of every level, written out. *)
Lemma logLevelToString_cases (level : LogLevel.t) :
  logLevelToString level =
  if bool_decide (level = LogLevel.DEBUG) then "DEBUG"
  else if bool_decide (level = LogLevel.INFO) then "INFO"
  else if bool_decide (level = LogLevel.WARNING) then "WARNING"
  else if bool_decide (level = LogLevel.ERROR) then "ERROR"
  else "".
Proof.
  unfold LogLevel.DEBUG, LogLevel.INFO, LogLevel.WARNING, LogLevel.ERROR.
  repeat case_bool_decide; subst; try reflexivity.
  unfold logLevelToString. repeat case_match; try reflexivity; congruence.
Qed.

(** * The claims *)

(** C1, as amended. For every minimum level and every event level (the
    four enumerators and any other value), a call to [log] or to one of
    [debug], [info], [warning], [error] on a logger whose file handle is
    open appends exactly one line to the file when the event level is at
    least the minimum level: the logger is unchanged, the text added is
    header, body and one line terminator, no other file changes, and the
    added text holds one line terminator beyond those of the caller's own
    texts. When the event level is below the minimum level the call
    returns at once, whether the handle is open or not: logger and world
    are exactly as before, so nothing was formatted, read from the clock,
    locked or written. *)
Theorem log_filters_by_level (e : entry) (file : string) (line : Z)
    (args : Args) (this : Logger) (w : World) :
  ((logLevel this ≤ entry_level e)%Z → is_open (logFile this) = true →
     (call_entry e file line args this w).1 = this ∧
     effect (target (logFile this))
       (log_line (localtime w (clock_reads w)) (entry_level e) file line args)
       (line_events
          (header (localtime w (clock_reads w)) (entry_level e) file line) args)
       1 w (call_entry e file line args this w).2 ∧
     count_newlines
       (log_line (localtime w (clock_reads w)) (entry_level e) file line args) =
     count_newlines file + count_newlines (args_text args) + 1) ∧
  ((entry_level e < logLevel this)%Z →
     call_entry e file line args this w = (this, w)).
Proof.
  rewrite call_entry_log. split.
  - intros Hpass Hopen. split; [apply log_this|]. split.
    + apply log_passed_open; [by apply le_geb | done].
    + apply count_newlines_log_line.
  - intros Hlow. apply log_filtered. by apply lt_geb.
Qed.

(** The theorem at a concrete open logger: [error] passes the INFO filter,
    [debug] does not. *)
Lemma log_filters_by_level_witness :
  count_newlines
    (log_line (localtime open_world (clock_reads open_world))
       (entry_level ViaError) "main.cpp" 7%Z [arg "x"]) =
  count_newlines "main.cpp" + count_newlines (args_text [arg "x"]) + 1 ∧
  call_entry ViaDebug "main.cpp" 7%Z [arg "x"] open_logger open_world =
    (open_logger, open_world).
Proof.
  split.
  - refine (proj2 (proj2 (proj1
      (log_filters_by_level ViaError "main.cpp" 7%Z [arg "x"]
         open_logger open_world) _ _))).
    + vm_compute. discriminate.
    + reflexivity.
  - refine (proj2 (log_filters_by_level ViaDebug "main.cpp" 7%Z [arg "x"]
                     open_logger open_world) _).
    vm_compute. reflexivity.
Defined.

(** C1 as it was stated fails on a logger whose handle is not open: the
    event level ERROR is at least the minimum level INFO, and the call
    leaves every file as it was instead of appending a line. *)
Lemma log_on_closed_handle_appends_nothing :
  (logLevel closed_logger ≤ LogLevel.ERROR)%Z ∧
  is_open (logFile closed_logger) = false ∧
  files (error "main.cpp" 7%Z [arg "disk failure"] closed_logger closed_world).2
    = files closed_world ∧
  content "/nonexistent/dir/app.log"
    (error "main.cpp" 7%Z [arg "disk failure"] closed_logger closed_world).2
  ≠ content "/nonexistent/dir/app.log" closed_world +:+
    log_line t0 LogLevel.ERROR "main.cpp" 7%Z [arg "disk failure"].
Proof.
  split; [vm_compute; discriminate|].
  split; [vm_compute; reflexivity|]. split.
  - vm_compute. reflexivity.
  - vm_compute. discriminate.
Qed.

(** C2. Every line the logger emits (a call that passes the filter, on an
    open handle) is the header [<timestamp> [<LEVEL_NAME>] <file>:<line> - ],
    then the texts of the message parts one after the other, then one line
    terminator, and nothing else. The level name is DEBUG, INFO, WARNING
    or ERROR for the four entry points and for [log] at these levels (and
    empty for [log] at any other value); the line number is the decimal
    text of the caller's number; the time stamp is made from the local
    time the call read from the clock and, for a calendar date, is
    YYYY-MM-DD HH:MM:SS with YYYY the four digits of the year
    [1900 + tm_year], MM the two digits of the month [tm_mon + 1], and DD,
    HH, MM, SS the two digits of day, hour, minute and second. *)
Theorem emitted_line_has_fixed_format (e : entry) (file : string) (line : Z)
    (args : Args) (this : Logger) (w : World) :
  (logLevel this ≤ entry_level e)%Z → is_open (logFile this) = true →
  content (target (logFile this)) (call_entry e file line args this w).2 =
    content (target (logFile this)) w +:+
    (put_time (localtime w (clock_reads w)) +:+ " [" +:+
     match e with
     | ViaDebug => "DEBUG"
     | ViaInfo => "INFO"
     | ViaWarning => "WARNING"
     | ViaError => "ERROR"
     | ViaLog level =>
         if bool_decide (level = LogLevel.DEBUG) then "DEBUG"
         else if bool_decide (level = LogLevel.INFO) then "INFO"
         else if bool_decide (level = LogLevel.WARNING) then "WARNING"
         else if bool_decide (level = LogLevel.ERROR) then "ERROR"
         else ""
     end +:+ "] " +:+
     file +:+ ":" +:+ pretty line +:+ " - ") +:+
    String.concat "" (map arg_text args) +:+ String "010"%char "" ∧
  signed_value (pretty line) = Some line ∧
  (calendar_tm (localtime w (clock_reads w)) →
   is_timestamp (put_time (localtime w (clock_reads w))) = true ∧
   ∃ year month day hour minute second : string,
     put_time (localtime w (clock_reads w)) =
       year +:+ "-" +:+ month +:+ "-" +:+ day +:+ " " +:+
       hour +:+ ":" +:+ minute +:+ ":" +:+ second ∧
     decimal_field 4 (1900 + tm_year (localtime w (clock_reads w))) year ∧
     decimal_field 2 (tm_mon (localtime w (clock_reads w)) + 1) month ∧
     decimal_field 2 (tm_mday (localtime w (clock_reads w))) day ∧
     decimal_field 2 (tm_hour (localtime w (clock_reads w))) hour ∧
     decimal_field 2 (tm_min (localtime w (clock_reads w))) minute ∧
     decimal_field 2 (tm_sec (localtime w (clock_reads w))) second).
Proof.
  intros Hpass Hopen. split; [|split].
  - rewrite <- args_text_concat.
    assert (match e with
            | ViaDebug => "DEBUG"
            | ViaInfo => "INFO"
            | ViaWarning => "WARNING"
            | ViaError => "ERROR"
            | ViaLog level =>
                if bool_decide (level = LogLevel.DEBUG) then "DEBUG"
                else if bool_decide (level = LogLevel.INFO) then "INFO"
                else if bool_decide (level = LogLevel.WARNING) then "WARNING"
                else if bool_decide (level = LogLevel.ERROR) then "ERROR"
                else ""
            end = logLevelToString (entry_level e)) as ->.
    { destruct e; try reflexivity. simpl. by rewrite logLevelToString_cases. }
    rewrite call_entry_log.
    exact (proj1 (log_passed_open _ file line args this w
                    (le_geb _ _ Hpass) Hopen)).
  - apply signed_value_pretty.
  - intros Hcal. split; [by apply put_time_is_timestamp|].
    destruct Hcal as (Hs & Hm & Hh & Hd & Hmo & Hy).
    eexists _, _, _, _, _, _. split; [reflexivity|].
    repeat split; first [apply year_field | apply pad2_field]; lia.
Qed.

(** The theorem at a concrete [info] call on an open logger. *)
Lemma emitted_line_has_fixed_format_witness :
  is_timestamp (put_time (localtime open_world (clock_reads open_world))) = true.
Proof.
  refine (proj1 (proj2 (proj2 (emitted_line_has_fixed_format ViaInfo "main.cpp" 42%Z
                   [arg "Server started on port "; arg 8080%Z]
                   open_logger open_world _ _)) _)).
  - vm_compute. discriminate.
  - reflexivity.
  - unfold calendar_tm. simpl. lia.
Defined.

(** C3. For every list of message parts, the empty one included, the body
    written after the header is the concatenation of the parts' texts in
    the order given, with nothing between them (the parts are inserted one
    by one, in order); with no parts the line is the header and the line
    terminator; the parts "a", 1, "b" give the body a1b. *)
Theorem body_is_concatenation_of_parts (e : entry) (file : string) (line : Z)
    (args : Args) (this : Logger) (w : World) :
  (logLevel this ≤ entry_level e)%Z → is_open (logFile this) = true →
  effect (target (logFile this))
    (header (localtime w (clock_reads w)) (entry_level e) file line +:+
     String.concat "" (map arg_text args) +:+ newline)
    ([EvLock;
      EvInsert (header (localtime w (clock_reads w)) (entry_level e) file line)]
     ++ map (λ a, EvInsert (arg_text a)) args ++ [EvEndl; EvUnlock])
    1 w (call_entry e file line args this w).2 ∧
  content (target (logFile this)) (call_entry e file line [] this w).2 =
    content (target (logFile this)) w +:+
    header (localtime w (clock_reads w)) (entry_level e) file line +:+ newline ∧
  content (target (logFile this))
    (call_entry e file line [arg "a"; arg 1%Z; arg "b"] this w).2 =
    content (target (logFile this)) w +:+
    header (localtime w (clock_reads w)) (entry_level e) file line +:+
    "a1b" +:+ newline.
Proof.
  intros Hpass Hopen. rewrite call_entry_log. apply le_geb in Hpass.
  split; [|split].
  - rewrite <- args_text_concat.
    apply (log_passed_open _ file line args this w Hpass Hopen).
  - exact (proj1 (log_passed_open _ file line [] this w Hpass Hopen)).
  - exact (proj1 (log_passed_open _ file line [arg "a"; arg 1%Z; arg "b"]
                    this w Hpass Hopen)).
Qed.

(** The theorem at a concrete [info] call with the parts "a", 1, "b". *)
Lemma body_is_concatenation_of_parts_witness :
  content (target (logFile open_logger))
    (call_entry ViaInfo "main.cpp" 42%Z [arg "a"; arg 1%Z; arg "b"]
       open_logger open_world).2 =
  content (target (logFile open_logger)) open_world +:+
  header (localtime open_world (clock_reads open_world))
    (entry_level ViaInfo) "main.cpp" 42%Z +:+ "a1b" +:+ newline.
Proof.
  refine (proj2 (proj2 (body_is_concatenation_of_parts ViaInfo "main.cpp" 42%Z
                   [] open_logger open_world _ _))).
  - vm_compute. discriminate.
  - reflexivity.
Defined.

(** C4. Constructing a logger on a path that cannot be opened does not
    fail: it leaves the handle closed, touches no file and writes one
    notice to [std::cerr], which is not the log file. On a logger whose
    handle is not open every call to [debug], [info], [warning], [error]
    (and to [log]) returns normally with the logger unchanged, every file
    unchanged and [std::cerr] unchanged, and so does every sequence of
    calls, after which the handle is still closed. *)
Theorem closed_handle_calls_are_silent :
  (∀ (name : string) (level : LogLevel.t) (w : World),
     name ∈ unopenable w →
     is_open (logFile (Logger_ctor name level w).1) = false ∧
     logLevel (Logger_ctor name level w).1 = level ∧
     files (Logger_ctor name level w).2 = files w ∧
     cerr (Logger_ctor name level w).2 =
       cerr w +:+ "Error opening log file." +:+ newline ∧
     trace (Logger_ctor name level w).2 = trace w) ∧
  (∀ (e : entry) (file : string) (line : Z) (args : Args)
     (this : Logger) (w : World),
     is_open (logFile this) = false →
     (call_entry e file line args this w).1 = this ∧
     files (call_entry e file line args this w).2 = files w ∧
     cerr (call_entry e file line args this w).2 = cerr w) ∧
  (∀ (cs : list call) (this : Logger) (w : World),
     is_open (logFile this) = false →
     is_open (logFile (run_calls cs this w).1) = false ∧
     files (run_calls cs this w).2 = files w ∧
     cerr (run_calls cs this w).2 = cerr w).
Proof.
  split; [|split].
  - intros name level w Hbad. by rewrite Logger_ctor_unopenable.
  - intros e file line args this w Hclosed.
    rewrite call_entry_log. split; [apply log_this|].
    destruct (LogLevel.geb (entry_level e) (logLevel this)) eqn:Hpass.
    + by rewrite log_passed_closed.
    + by rewrite log_filtered.
  - intros cs this w Hclosed.
    destruct (run_calls_logFile cs this w) as [-> _].
    destruct (run_calls_closed cs this w Hclosed) as (? & ? & ?). done.
Qed.

(** The theorem at a concrete [error] call on a closed handle. *)
Lemma closed_handle_calls_are_silent_witness :
  (call_entry ViaError "main.cpp" 7%Z [arg "disk failure"]
     closed_logger closed_world).1 = closed_logger ∧
  files (call_entry ViaError "main.cpp" 7%Z [arg "disk failure"]
           closed_logger closed_world).2 = files closed_world ∧
  cerr (call_entry ViaError "main.cpp" 7%Z [arg "disk failure"]
          closed_logger closed_world).2 = cerr closed_world.
Proof.
  refine (proj1 (proj2 closed_handle_calls_are_silent)
            ViaError "main.cpp" 7%Z [arg "disk failure"]
            closed_logger closed_world _).
  reflexivity.
Defined.

(** C5. The level-to-name mapping sends DEBUG to "DEBUG", INFO to "INFO",
    WARNING to "WARNING", ERROR to "ERROR", and every value that is not
    one of the four enumerators to the empty string; it is defined on
    every value. *)
Theorem logLevelToString_names :
  logLevelToString LogLevel.DEBUG = "DEBUG" ∧
  logLevelToString LogLevel.INFO = "INFO" ∧
  logLevelToString LogLevel.WARNING = "WARNING" ∧
  logLevelToString LogLevel.ERROR = "ERROR" ∧
  (∀ level : LogLevel.t,
     LogLevel.is_enumerator level = false → logLevelToString level = "").
Proof.
  repeat split; try reflexivity.
  intros level Hout. unfold LogLevel.is_enumerator in Hout.
  apply bool_decide_eq_false in Hout.
  unfold LogLevel.enumerators, LogLevel.DEBUG, LogLevel.INFO,
    LogLevel.WARNING, LogLevel.ERROR in Hout.
  rewrite !elem_of_cons, elem_of_nil in Hout.
  unfold logLevelToString.
  repeat case_match; try reflexivity; exfalso; apply Hout; subst; tauto.
Qed.

(** Two values outside the enumeration. *)
Lemma logLevelToString_names_witness :
  logLevelToString 4%Z = "" ∧ logLevelToString (-1)%Z = "".
Proof.
  split.
  - refine (proj2 (proj2 (proj2 (proj2 logLevelToString_names))) 4%Z _).
    vm_compute. reflexivity.
  - refine (proj2 (proj2 (proj2 (proj2 logLevelToString_names))) (-1)%Z _).
    vm_compute. reflexivity.
Defined.

(** C6. [setLogLevel] replaces the minimum level with its argument, for
    every level value and every logger, touching nothing else and never
    failing; the filter of every later call compares against the new
    level, whatever the old one was: on an open handle a later call emits
    its line exactly when its level is at least the new minimum. Setting
    WARNING on a fresh logger and then calling [info] and [error] adds one
    line, the one of [error]. *)
Theorem setLogLevel_replaces_minimum_level (level : LogLevel.t)
    (this : Logger) (w : World) :
  setLogLevel level this w =
    (mk_Logger level (logFileName this) (logFile this), w) ∧
  (∀ (e : entry) (file : string) (line : Z) (args : Args) (w1 : World),
     call_entry e file line args (setLogLevel level this w).1 w1 =
     if LogLevel.geb (entry_level e) level
     then log_impl (header (localtime w1 (clock_reads w1)) (entry_level e)
                      file line) args
                   (setLogLevel level this w).1 (read_localtime w1).2
     else ((setLogLevel level this w).1, w1)) ∧
  (∀ (e : entry) (file : string) (line : Z) (args : Args) (w1 : World),
     is_open (logFile this) = true →
     content (target (logFile this))
       (call_entry e file line args (setLogLevel level this w).1 w1).2 =
     content (target (logFile this)) w1 +:+
     (if LogLevel.geb (entry_level e) level
      then log_line (localtime w1 (clock_reads w1)) (entry_level e) file line args
      else "")) ∧
  (∀ (name file1 file2 : string) (line1 line2 : Z) (args1 args2 : Args)
     (initial : LogLevel.t) (w1 : World),
     name ∉ unopenable w1 →
     content name
       (run_calls [CallSetLogLevel LogLevel.WARNING;
                   CallLog ViaInfo file1 line1 args1;
                   CallLog ViaError file2 line2 args2]
          (Logger_ctor name initial w1).1 (Logger_ctor name initial w1).2).2 =
     content name w1 +:+
     log_line (localtime w1 (clock_reads w1)) LogLevel.ERROR file2 line2 args2).
Proof.
  split; [reflexivity|]. split; [|split].
  - intros e file line args w1. rewrite call_entry_log. unfold log. simpl.
    by destruct (LogLevel.geb (entry_level e) level).
  - intros e file line args w1 Hopen. rewrite call_entry_log. simpl.
    destruct (LogLevel.geb (entry_level e) level) eqn:Hpass.
    + exact (proj1 (log_passed_open _ file line args
               (mk_Logger level (logFileName this) (logFile this)) w1 Hpass Hopen)).
    + rewrite log_filtered by done. simpl. by rewrite string_app_nil_r.
  - intros name file1 file2 line1 line2 args1 args2 initial w1 Hok.
    destruct (Logger_ctor_openable name initial w1 Hok) as [Hlg H1].
    destruct (run_calls_open
      [CallSetLogLevel LogLevel.WARNING; CallLog ViaInfo file1 line1 args1;
       CallLog ViaError file2 line2 args2]
      (Logger_ctor name initial w1).1 (Logger_ctor name initial w1).2)
      as [evs H2].
    { by rewrite Hlg. }
    destruct H1 as (Hc & _ & _ & _ & Hl & Hr & _).
    destruct H2 as (Hc2 & _).
    rewrite Hlg in Hc2 |- *. etrans; [exact Hc2|].
    cbn [target logFile].
    rewrite Hc, Hl, Hr, Nat.add_0_r, string_app_nil_r.
    cbn [expected_lines entry_level logLevel join foldr].
    change (LogLevel.geb LogLevel.INFO LogLevel.WARNING) with false.
    change (LogLevel.geb LogLevel.ERROR LogLevel.WARNING) with true.
    cbn [join foldr]. by rewrite string_app_nil_r.
Qed.

(** An [info] call after the minimum level was raised to WARNING. *)
Lemma setLogLevel_replaces_minimum_level_witness :
  content (target (logFile open_logger))
    (call_entry ViaInfo "main.cpp" 42%Z [arg "x"]
       (setLogLevel LogLevel.WARNING open_logger open_world).1 open_world).2 =
  content (target (logFile open_logger)) open_world +:+
  (if LogLevel.geb (entry_level ViaInfo) LogLevel.WARNING
   then log_line (localtime open_world (clock_reads open_world))
          (entry_level ViaInfo) "main.cpp" 42%Z [arg "x"]
   else "").
Proof.
  refine (proj1 (proj2 (proj2
    (setLogLevel_replaces_minimum_level LogLevel.WARNING open_logger open_world)))
    ViaInfo "main.cpp" 42%Z [arg "x"] open_world _).
  reflexivity.
Defined.

(** C7. Each of [debug], [info], [warning], [error] is the generic [log]
    at the level DEBUG, INFO, WARNING, ERROR respectively, with the same
    file, line and message parts: on every input the two return the same
    logger and the same world. *)
Theorem entry_points_forward_to_log (file : string) (line : Z) (args : Args)
    (this : Logger) (w : World) :
  debug file line args this w = log LogLevel.DEBUG file line args this w ∧
  info file line args this w = log LogLevel.INFO file line args this w ∧
  warning file line args this w = log LogLevel.WARNING file line args this w ∧
  error file line args this w = log LogLevel.ERROR file line args this w.
Proof. unfold debug, info, warning, error. by repeat split. Qed.

(** C8. The constructor opens the file for appending and never truncates:
    construction alone leaves the content of the file as it was; for any
    prior content, after constructing a logger on the path and making any
    calls, the file is the prior content followed by the lines emitted, in
    order; the same holds for any number of successive loggers on the
    path, and in particular two successive loggers that each emit one line
    leave the prior content followed by the first line and then the
    second. *)
Theorem construction_appends_to_prior_content (name : string) (w : World) :
  (∀ level : LogLevel.t,
     content name (Logger_ctor name level w).2 = content name w) ∧
  (name ∉ unopenable w →
   (∀ (level : LogLevel.t) (cs : list call),
      content name
        (run_calls cs (Logger_ctor name level w).1 (Logger_ctor name level w).2).2 =
      content name w +:+
      join (expected_lines (localtime w) cs level (clock_reads w))) ∧
   (∀ ss : list (LogLevel.t * list call),
      content name (sessions name ss w).2 =
      content name w +:+
      join (sessions_lines (localtime w) ss (clock_reads w))) ∧
   (∀ (level1 level2 : LogLevel.t) (e1 e2 : entry) (file1 file2 : string)
      (line1 line2 : Z) (args1 args2 : Args),
      (level1 ≤ entry_level e1)%Z → (level2 ≤ entry_level e2)%Z →
      content name
        (sessions name [(level1, [CallLog e1 file1 line1 args1]);
                        (level2, [CallLog e2 file2 line2 args2])] w).2 =
      content name w +:+
      log_line (localtime w (clock_reads w)) (entry_level e1) file1 line1 args1 +:+
      log_line (localtime w (S (clock_reads w))) (entry_level e2)
        file2 line2 args2)).
Proof.
  split.
  - intros level. destruct (decide (name ∈ unopenable w)) as [Hbad|Hok].
    + by rewrite Logger_ctor_unopenable.
    + destruct (Logger_ctor_openable name level w Hok) as [_ (Hc & _)].
      by rewrite Hc, string_app_nil_r.
  - intros Hok. split; [|split].
    + intros level cs. rewrite <- session_world.
      destruct (session_openable name level cs w Hok) as [evs (Hc & _)].
      exact Hc.
    + intros ss.
      destruct (sessions_openable name ss w Hok) as [evs (Hc & _)].
      exact Hc.
    + intros level1 level2 e1 e2 file1 file2 line1 line2 args1 args2 H1 H2.
      destruct (sessions_openable name
        [(level1, [CallLog e1 file1 line1 args1]);
         (level2, [CallLog e2 file2 line2 args2])] w Hok) as [evs (Hc & _)].
      rewrite Hc. cbn [sessions_lines expected_lines].
      rewrite (le_geb _ _ H1). cbn [length app Nat.add].
      rewrite Nat.add_1_r, (le_geb _ _ H2).
      cbn [join foldr app]. by rewrite string_app_nil_r.
Qed.

(** Two successive loggers on one path, one line each. *)
Lemma construction_appends_to_prior_content_witness :
  content "app.log"
    (sessions "app.log"
       [(LogLevel.INFO, [CallLog ViaInfo "a.cpp" 1%Z [arg "first"]]);
        (LogLevel.DEBUG, [CallLog ViaError "b.cpp" 2%Z [arg "second"]])]
       open_world).2 =
  content "app.log" open_world +:+
  log_line (localtime open_world (clock_reads open_world))
    (entry_level ViaInfo) "a.cpp" 1%Z [arg "first"] +:+
  log_line (localtime open_world (S (clock_reads open_world)))
    (entry_level ViaError) "b.cpp" 2%Z [arg "second"].
Proof.
  refine (proj2 (proj2 (proj2
    (construction_appends_to_prior_content "app.log" open_world) _))
    LogLevel.INFO LogLevel.DEBUG ViaInfo ViaError "a.cpp" "b.cpp" 1%Z 2%Z
    [arg "first"] [arg "second"] _ _).
  - vm_compute. discriminate.
  - vm_compute. discriminate.
  - vm_compute. discriminate.
Defined.

(** C10. [logMessage] returns on every finite list of parts: the overload
    without parts does nothing, the other one inserts the first part and
    goes on with the strictly shorter rest, and a list of n parts makes
    exactly n insertions, those of the parts in order, and nothing more. *)
Theorem logMessage_terminates_after_n_insertions (stream : ofstream)
    (args : Args) (w : World) :
  logMessage stream [] w = (tt, w) ∧
  (∀ (value : Arg) (rest : Args),
     logMessage stream (value :: rest) w =
       logMessage stream rest (insert_text stream (arg_text value) w).2 ∧
     trace (insert_text stream (arg_text value) w).2 =
       trace w ++ [EvInsert (arg_text value)] ∧
     length rest < length (value :: rest)) ∧
  ∃ w' : World,
    logMessage stream args w = (tt, w') ∧
    trace w' = trace w ++ map (λ a, EvInsert (arg_text a)) args ∧
    length (trace w') = length (trace w) + length args.
Proof.
  split; [reflexivity|]. split.
  - intros value rest. split; [apply logMessage_cons|]. split.
    + unfold insert_text, emit, append_file. io_unfold.
      by destruct (is_open stream).
    + simpl. lia.
  - exists (logMessage stream args w).2.
    pose proof (logMessage_trace stream args w) as Ht.
    split; [by destruct (logMessage stream args w) as [[] w']|].
    split; [exact Ht|].
    by rewrite Ht, length_app, length_map.
Qed.

(** ** Concurrent runs *)

Import Concurrent.

Lemma lookup_thread_insert (ths : list pc) (i j : nat) (p p' q : pc) :
  ths !! i = Some p →
  <[i := p']> ths !! j = Some q ↔
  (j = i ∧ q = p') ∨ (j ≠ i ∧ ths !! j = Some q).
Proof.
  intros Hi. apply lookup_lt_Some in Hi as Hlt.
  destruct (decide (j = i)) as [->|Hne].
  - rewrite list_lookup_insert_eq by done. split.
    + intros [= <-]. by left.
    + by intros [[_ ->]|[? _]].
  - rewrite list_lookup_insert_ne by done. split.
    + intros Hq. by right.
    + by intros [[? _]|[_ ?]].
Qed.

Lemma at_pc_insert_same (P : pc → bool) (ths : list pc) (i : nat) (p p' : pc) :
  ths !! i = Some p → P p' = P p →
  ∀ j, at_pc P (<[i := p']> ths) j ↔ at_pc P ths j.
Proof.
  intros Hi HP j. split.
  - intros (q & Hq & HPq).
    apply (lookup_thread_insert _ _ _ _ _ _ Hi) in Hq as [[-> ->]|[? ?]].
    + exists p. by rewrite <- HP.
    + by exists q.
  - intros (q & Hq & HPq). destruct (decide (j = i)) as [->|Hne].
    + exists p'. rewrite (lookup_thread_insert _ _ _ _ _ _ Hi).
      split; [by left|]. rewrite HP. congruence.
    + exists q. rewrite (lookup_thread_insert _ _ _ _ _ _ Hi). by split; [right|].
Qed.

Lemma at_pc_insert_true (P : pc → bool) (ths : list pc) (i : nat) (p p' : pc) :
  ths !! i = Some p → P p' = true →
  ∀ j, at_pc P (<[i := p']> ths) j ↔ (j = i ∨ at_pc P ths j).
Proof.
  intros Hi HP j. split.
  - intros (q & Hq & HPq).
    apply (lookup_thread_insert _ _ _ _ _ _ Hi) in Hq as [[-> ->]|[? ?]].
    + by left.
    + right. by exists q.
  - intros [->|(q & Hq & HPq)].
    + exists p'. rewrite (lookup_thread_insert _ _ _ _ _ _ Hi). by split; [left|].
    + destruct (decide (j = i)) as [->|Hne].
      * exists p'. rewrite (lookup_thread_insert _ _ _ _ _ _ Hi). by split; [left|].
      * exists q. rewrite (lookup_thread_insert _ _ _ _ _ _ Hi). by split; [right|].
Qed.

Lemma at_pc_insert_false (P : pc → bool) (ths : list pc) (i : nat) (p p' : pc) :
  ths !! i = Some p → P p' = false →
  ∀ j, at_pc P (<[i := p']> ths) j ↔ (j ≠ i ∧ at_pc P ths j).
Proof.
  intros Hi HP j. split.
  - intros (q & Hq & HPq).
    apply (lookup_thread_insert _ _ _ _ _ _ Hi) in Hq as [[-> ->]|[? ?]].
    + congruence.
    + split; [done|]. by exists q.
  - intros [Hne (q & Hq & HPq)].
    exists q. rewrite (lookup_thread_insert _ _ _ _ _ _ Hi). by split; [right|].
Qed.

Lemma local_ok_insert (calls : list error_call) (ths : list pc) (i : nat) (p p' : pc) :
  (∀ j q call, ths !! j = Some q → calls !! j = Some call → local_ok call q) →
  ths !! i = Some p →
  (∀ call, calls !! i = Some call → local_ok call p → local_ok call p') →
  ∀ j q call,
    <[i := p']> ths !! j = Some q → calls !! j = Some call → local_ok call q.
Proof.
  intros Hall Hi Hnew j q call Hq Hcall.
  apply (lookup_thread_insert _ _ _ _ _ _ Hi) in Hq as [[-> ->]|[? ?]].
  - apply Hnew; [done|]. by eapply Hall.
  - by eapply Hall.
Qed.

(** The text of the holder when the mutex and the holder's own statement
    are known. *)
Lemma holder_text_holding (ths : list pc) (i : nat) (p : pc) (w : World) :
  ths !! i = Some p →
  holder_text (mk_config ths (Some i) w) = partial_text p.
Proof. intros Hi. unfold holder_text. simpl. by rewrite Hi. Qed.

Lemma holder_text_insert_other (ths : list pc) (i : nat) (p' : pc)
    (m : option nat) (w w' : World) :
  m ≠ Some i →
  holder_text (mk_config (<[i := p']> ths) m w') =
  holder_text (mk_config ths m w).
Proof.
  intros Hm. unfold holder_text. simpl. destruct m as [k|]; [|done].
  rewrite list_lookup_insert_ne; [done|]. congruence.
Qed.

Lemma join_snoc (xs : list string) (x : string) :
  join (xs ++ [x]) = join xs +:+ x.
Proof. rewrite join_app. simpl. by rewrite string_app_nil_r. Qed.

Section ConcurrentRun.
Variable this : Logger.
Variable calls : list error_call.
Variable w : World.
Hypothesis Hopen : is_open (logFile this) = true.
Hypothesis Hpass : (logLevel this ≤ LogLevel.ERROR)%Z.

Lemma invariant_start : invariant this calls w [] (start_errors calls w).
Proof.
  constructor; simpl.
  - by rewrite length_map.
  - intros i p call Hp Hcall. rewrite list_lookup_fmap, Hcall in Hp.
    injection Hp as <-. by simpl.
  - intros i. split; [done|]. intros (q & Hq & Hh).
    rewrite list_lookup_fmap in Hq. destruct (calls !! i); [|done].
    injection Hq as <-. done.
  - intros i. split; [by rewrite elem_of_nil|]. intros (q & Hq & Hf).
    rewrite list_lookup_fmap in Hq. destruct (calls !! i); [|done].
    injection Hq as <-. done.
  - constructor.
  - unfold holder_text. simpl. by rewrite !string_app_nil_r.
Qed.

(** A thread that is not in the critical section does not hold the
    mutex. *)
Lemma not_holder (written : list (nat * tm)) (c : config) (i : nat) (p : pc) :
  invariant this calls w written c →
  threads c !! i = Some p → holds p = false → mutex c ≠ Some i.
Proof.
  intros Hinv Hp Hh Hm. apply (inv_mutex _ _ _ _ _ Hinv) in Hm as (q & Hq & Hhq).
  congruence.
Qed.

Lemma is_holder (written : list (nat * tm)) (c : config) (i : nat) (p : pc) :
  invariant this calls w written c →
  threads c !! i = Some p → holds p = true → mutex c = Some i.
Proof.
  intros Hinv Hp Hh. apply (inv_mutex _ _ _ _ _ Hinv). by exists p.
Qed.

(** A step that stays outside the critical section and leaves the file
    alone. *)
Lemma invariant_outside (written : list (nat * tm)) (c : config) (i : nat)
    (p p' : pc) (w' : World) :
  invariant this calls w written c →
  threads c !! i = Some p →
  holds p = false → holds p' = false →
  finished p = false → finished p' = false →
  (∀ call, calls !! i = Some call → local_ok call p → local_ok call p') →
  content (target (logFile this)) w' = content (target (logFile this)) (world c) →
  invariant this calls w written
    (mk_config (<[i := p']> (threads c)) (mutex c) w').
Proof.
  intros Hinv Hp Hh Hh' Hf Hf' Hloc Hc.
  destruct Hinv as [Hlen Hlocal Hmutex Hwritten Hnodup Hcontent].
  constructor; simpl.
  - by rewrite length_insert.
  - by eapply local_ok_insert.
  - intros j. rewrite Hmutex. symmetry.
    apply (at_pc_insert_same holds _ _ p); [done|congruence].
  - intros j. rewrite Hwritten. symmetry.
    apply (at_pc_insert_same finished _ _ p); [done|congruence].
  - done.
  - rewrite Hc, Hcontent. do 2 f_equal.
    rewrite (holder_text_insert_other _ _ _ _ (world c)).
    + by destruct c.
    + intros Hm. apply Hmutex in Hm as (q & Hq & Hhq). congruence.
Qed.

(** A step inside the critical section that adds [text] to the file
    without completing the line. *)
Lemma invariant_inside (written : list (nat * tm)) (c : config) (i : nat)
    (p p' : pc) (w' : World) (text : string) :
  invariant this calls w written c →
  threads c !! i = Some p →
  holds p = true → holds p' = true →
  finished p = false → finished p' = false →
  (∀ call, calls !! i = Some call → local_ok call p → local_ok call p') →
  content (target (logFile this)) w' =
    content (target (logFile this)) (world c) +:+ text →
  (∀ call, calls !! i = Some call → local_ok call p →
     partial_text p' = partial_text p +:+ text) →
  invariant this calls w written
    (mk_config (<[i := p']> (threads c)) (mutex c) w').
Proof.
  intros Hinv Hp Hh Hh' Hf Hf' Hloc Hc Hpart.
  pose proof (is_holder _ _ _ _ Hinv Hp Hh) as Hm.
  destruct Hinv as [Hlen Hlocal Hmutex Hwritten Hnodup Hcontent].
  pose proof (lookup_lt_Some _ _ _ Hp) as Hlt.
  assert (∃ call, calls !! i = Some call) as [call Hcall].
  { apply lookup_lt_is_Some. lia. }
  constructor; simpl.
  - by rewrite length_insert.
  - by eapply local_ok_insert.
  - intros j. rewrite Hmutex. symmetry.
    apply (at_pc_insert_same holds _ _ p); [done|congruence].
  - intros j. rewrite Hwritten. symmetry.
    apply (at_pc_insert_same finished _ _ p); [done|congruence].
  - done.
  - rewrite Hc, Hcontent, Hm.
    rewrite (holder_text_holding _ _ p') by (by apply list_lookup_insert_eq).
    unfold holder_text. rewrite Hm, Hp.
    rewrite (Hpart call Hcall (Hlocal i p call Hp Hcall)).
    by rewrite !string_app_assoc.
Qed.

(** Taking the free mutex. *)
Lemma invariant_lock (written : list (nat * tm)) (c : config) (i : nat)
    (message : string) (args : Args) :
  invariant this calls w written c →
  threads c !! i = Some (AtLock message args) →
  mutex c = None →
  invariant this calls w written
    (mk_config (<[i := AtGuard message args]> (threads c)) (Some i)
               (emit EvLock (world c)).2).
Proof.
  intros Hinv Hp Hm.
  destruct Hinv as [Hlen Hlocal Hmutex Hwritten Hnodup Hcontent].
  constructor; simpl.
  - by rewrite length_insert.
  - eapply local_ok_insert; [done..|]. by intros call _ H.
  - intros j.
    rewrite (at_pc_insert_true holds _ _ _ (AtGuard message args) Hp eq_refl).
    split; [intros [= ->]; by left|].
    intros [->|Hj]; [done|]. apply Hmutex in Hj. congruence.
  - intros j. rewrite Hwritten. symmetry.
    by apply (at_pc_insert_same finished _ _ (AtLock message args)).
  - done.
  - change (content (target (logFile this)) (world c) =
            content (target (logFile this)) w +:+
            join (map (line_of calls) written) +:+
            holder_text (mk_config (<[i := AtGuard message args]> (threads c))
                           (Some i) (emit EvLock (world c)).2)).
    rewrite (holder_text_holding _ _ (AtGuard message args)).
    + rewrite Hcontent. unfold holder_text. by rewrite Hm.
    + apply list_lookup_insert_eq. by eapply lookup_lt_Some.
Qed.

(** The line terminator completes the line of the holder. *)
Lemma invariant_endl (written : list (nat * tm)) (c : config) (i : nat)
    (message : string) (args : Args) :
  invariant this calls w written c →
  threads c !! i = Some (AtEndl message args) →
  ∃ t, invariant this calls w (written ++ [(i, t)])
         (mk_config (<[i := AtUnlock message args]> (threads c)) (mutex c)
                    (endl (logFile this) (world c)).2).
Proof.
  intros Hinv Hp.
  pose proof (is_holder _ _ _ _ Hinv Hp eq_refl) as Hm.
  destruct Hinv as [Hlen Hlocal Hmutex Hwritten Hnodup Hcontent].
  pose proof (lookup_lt_Some _ _ _ Hp) as Hlt.
  assert (∃ call, calls !! i = Some call) as [call Hcall].
  { apply lookup_lt_is_Some. lia. }
  destruct (Hlocal i _ call Hp Hcall) as [Hargs [t Hmsg]].
  exists t. constructor; simpl.
  - by rewrite length_insert.
  - eapply local_ok_insert; [done..|]. by intros call' _ H.
  - intros j. rewrite Hmutex. symmetry.
    by apply (at_pc_insert_same holds _ _ (AtEndl message args)).
  - intros j. rewrite fmap_app, elem_of_app, Hwritten. simpl.
    rewrite list_elem_of_singleton.
    rewrite (at_pc_insert_true finished _ _ _ (AtUnlock message args) Hp eq_refl).
    tauto.
  - rewrite fmap_app. simpl. apply NoDup_app. split; [done|]. split.
    + intros j Hj Hji. apply list_elem_of_singleton in Hji as ->.
      apply Hwritten in Hj as (q & Hq & Hfq). rewrite Hp in Hq.
      by injection Hq as <-.
    + apply NoDup_singleton.
  - destruct (endl_effect (logFile this) (world c) Hopen) as (Hc & _).
    rewrite Hc, Hcontent, Hm.
    rewrite (holder_text_holding _ _ (AtUnlock message args))
      by (by apply list_lookup_insert_eq).
    unfold holder_text. rewrite Hm, Hp. simpl.
    rewrite map_app.
    change (map (line_of calls) [(i, t)]) with [line_of calls (i, t)].
    rewrite join_snoc.
    unfold line_of. cbn [fst snd]. rewrite Hcall. unfold log_line.
    rewrite <- Hmsg, <- Hargs.
    by rewrite !string_app_assoc, string_app_nil_r.
Qed.

(** Releasing the mutex. *)
Lemma invariant_unlock (written : list (nat * tm)) (c : config) (i : nat)
    (message : string) (args : Args) :
  invariant this calls w written c →
  threads c !! i = Some (AtUnlock message args) →
  invariant this calls w written
    (mk_config (<[i := Returned]> (threads c)) None
               (emit EvUnlock (world c)).2).
Proof.
  intros Hinv Hp.
  pose proof (is_holder _ _ _ _ Hinv Hp eq_refl) as Hm.
  destruct Hinv as [Hlen Hlocal Hmutex Hwritten Hnodup Hcontent].
  constructor; simpl.
  - by rewrite length_insert.
  - eapply local_ok_insert; [done..|]. by intros call _ _.
  - intros j.
    rewrite (at_pc_insert_false holds _ _ _ Returned Hp eq_refl).
    split; [done|]. intros [Hne Hj]. apply Hmutex in Hj. congruence.
  - intros j. rewrite Hwritten. symmetry.
    by apply (at_pc_insert_same finished _ _ (AtUnlock message args)).
  - done.
  - change (content (target (logFile this)) (world c) =
            content (target (logFile this)) w +:+
            join (map (line_of calls) written) +:+ "").
    rewrite Hcontent. unfold holder_text. by rewrite Hm, Hp.
Qed.

(** Every step of every thread keeps the invariant. *)
Lemma invariant_step (written : list (nat * tm)) (c c' : config) (i : nat) :
  invariant this calls w written c →
  step this i c = Some c' →
  ∃ written', invariant this calls w written' c'.
Proof.
  intros Hinv Hstep. unfold step in Hstep.
  destruct (threads c !! i) as [p|] eqn:Hp; [|done].
  destruct p as [level file line args|level file line args|message args
                |message args|message args|message args rest|message args
                |message args|]; simpl in Hstep.
  - (* the filter *)
    assert (level = LogLevel.ERROR) as ->.
    { pose proof (lookup_lt_Some _ _ _ Hp) as Hlt.
      rewrite (inv_length _ _ _ _ _ Hinv) in Hlt.
      apply lookup_lt_is_Some in Hlt as [call Hcall].
      by destruct (inv_local _ _ _ _ _ Hinv i _ call Hp Hcall) as (-> & _). }
    rewrite (le_geb _ _ Hpass) in Hstep. injection Hstep as <-.
    exists written. by eapply invariant_outside.
  - (* the header *)
    injection Hstep as <-. exists written.
    eapply invariant_outside; [done..| |done].
    intros call Hcall (-> & -> & -> & ->). split; [done|]. by eexists.
  - (* the lock guard *)
    destruct (mutex c) eqn:Hm; [done|]. injection Hstep as <-.
    exists written. by apply invariant_lock.
  - (* the test of the handle *)
    rewrite Hopen in Hstep. injection Hstep as <-. exists written.
    eapply (invariant_inside _ _ _ _ _ _ ""); [done..| |done].
    by rewrite string_app_nil_r.
  - (* the header goes to the file *)
    injection Hstep as <-. exists written.
    eapply (invariant_inside _ _ _ _ _ _ message); [done..| | |].
    + intros call Hcall Hloc. split; [done|]. by exists [].
    + by destruct (insert_text_effect (logFile this) message (world c) Hopen).
    + intros call Hcall Hloc. simpl.
      by rewrite Nat.sub_diag, string_app_nil_r.
  - (* one part goes to the file, or none is left *)
    destruct rest as [|value rest]; injection Hstep as <-; exists written.
    + eapply (invariant_inside _ _ _ _ _ _ ""); [done..| | |].
      * by intros call Hcall [Hloc _].
      * by rewrite string_app_nil_r.
      * intros call Hcall Hloc. simpl.
        by rewrite Nat.sub_0_r, firstn_all, string_app_nil_r.
    + eapply (invariant_inside _ _ _ _ _ _ (arg_text value)); [done..| | |].
      * intros call Hcall [Hloc [pre Hpre]]. split; [done|].
        exists (pre ++ [value]). by rewrite <- app_assoc.
      * by destruct (insert_text_effect (logFile this) (arg_text value)
                       (world c) Hopen).
      * intros call Hcall [Hloc [pre ->]]. simpl.
        rewrite !length_app. simpl.
        replace (length pre + S (length rest) - S (length rest))
          with (length pre + 0) by lia.
        replace (length pre + S (length rest) - length rest)
          with (length (pre ++ [value]) + 0)
          by (rewrite length_app; simpl; lia).
        rewrite take_app_add.
        rewrite (app_assoc pre [value] rest : pre ++ value :: rest = _).
        rewrite take_app_add. simpl.
        rewrite !app_nil_r, args_text_app. simpl.
        by rewrite !string_app_assoc, string_app_nil_r.
  - (* the line terminator *)
    injection Hstep as <-.
    destruct (invariant_endl written c i message args Hinv Hp) as [t Ht].
    by exists (written ++ [(i, t)]).
  - (* the end of the guard's scope *)
    case_bool_decide; [|done]. injection Hstep as <-.
    exists written. by eapply invariant_unlock.
  - done.
Qed.

Lemma invariant_run (schedule : list nat) (written : list (nat * tm))
    (c c' : config) :
  invariant this calls w written c →
  run this schedule c = Some c' →
  ∃ written', invariant this calls w written' c'.
Proof.
  revert written c. induction schedule as [|i rest IH]; intros written c Hinv Hrun.
  - injection Hrun as <-. by exists written.
  - simpl in Hrun. destruct (step this i c) as [c1|] eqn:Hstep; [|done].
    destruct (invariant_step written c c1 i Hinv Hstep) as [written1 H1].
    by eapply IH.
Qed.
End ConcurrentRun.

Example interleaved_run :
  ∃ c, run open_logger interleaved (start_errors two_calls open_world) = Some c ∧
       all_returned c = true ∧
       content "app.log" (world c) =
       "2024-01-01 12:00:01 [ERROR] a.cpp:10 - a1b" +:+ newline +:+
       "2024-01-01 12:00:00 [ERROR] b.cpp:20 - x" +:+ newline.
Proof. eexists. split; [vm_compute; reflexivity|]. vm_compute. done. Qed.

(** A thread cannot enter the critical section while another one is in
    it. *)
Example lock_is_exclusive :
  run open_logger [0; 0; 0; 1; 1; 1] (start_errors two_calls open_world) = None.
Proof. vm_compute. reflexivity. Qed.

(** *** Runs can always be completed *)

Lemma sum_remaining_insert (ths : list pc) (i : nat) (p p' : pc) :
  ths !! i = Some p →
  sum_list (map remaining (<[i := p']> ths)) + remaining p =
  sum_list (map remaining ths) + remaining p'.
Proof.
  revert i. induction ths as [|q ths IH]; intros i Hi; [done|].
  destruct i as [|i]; simpl in *.
  - injection Hi as ->. lia.
  - specialize (IH i Hi). lia.
Qed.

Lemma thread_step_remaining (this : Logger) (i : nat) (p p' : pc)
    (m m' : option nat) (w w' : World) :
  thread_step this i p m w = Some (p', m', w') → remaining p' < remaining p.
Proof.
  destruct p as [level file line args|level file line args|message args
                |message args|message args|message args rest|message args
                |message args|]; simpl; intros Hstep.
  - destruct (LogLevel.geb _ _); injection Hstep as <- _ _; simpl; lia.
  - injection Hstep as <- _ _. simpl. lia.
  - destruct m; [done|]. injection Hstep as <- _ _. simpl. lia.
  - destruct (is_open _); injection Hstep as <- _ _; simpl; lia.
  - injection Hstep as <- _ _. simpl. lia.
  - destruct rest; injection Hstep as <- _ _; simpl; lia.
  - injection Hstep as <- _ _. simpl. lia.
  - case_bool_decide; [|done]. injection Hstep as <- _ _. simpl. lia.
  - done.
Qed.

Lemma step_remaining (this : Logger) (i : nat) (c c' : config) :
  step this i c = Some c' → remaining_steps c' < remaining_steps c.
Proof.
  unfold step, remaining_steps. intros Hstep.
  destruct (threads c !! i) as [p|] eqn:Hp; [|done].
  destruct (thread_step this i p (mutex c) (world c)) as [[[p' m'] w']|] eqn:Ht;
    [|done].
  injection Hstep as <-. simpl.
  pose proof (sum_remaining_insert _ _ _ p' Hp).
  pose proof (thread_step_remaining _ _ _ _ _ _ _ _ Ht). lia.
Qed.

Lemma not_all_returned (ths : list pc) :
  forallb is_returned ths = false →
  ∃ i p, ths !! i = Some p ∧ is_returned p = false.
Proof.
  induction ths as [|q ths IH]; [done|]. simpl.
  destruct (is_returned q) eqn:Hq; simpl.
  - intros H. destruct (IH H) as (i & p & Hp & Hr). by exists (S i), p.
  - intros _. by exists 0, q.
Qed.

(** While some call has not returned, some thread can move: the holder of
    the mutex if there is one, any thread otherwise. *)
Lemma step_possible (this : Logger) (calls : list error_call) (w : World)
    (written : list (nat * tm)) (c : config) :
  invariant this calls w written c →
  all_returned c = false →
  ∃ i c', step this i c = Some c'.
Proof.
  intros Hinv Hnot. destruct (mutex c) as [i|] eqn:Hm.
  - apply (inv_mutex _ _ _ _ _ Hinv) in Hm as Hat.
    destruct Hat as (q & Hq & Hh). exists i. unfold step. rewrite Hq, Hm.
    destruct q as [| | | | |message args rest| | |]; try discriminate Hh; simpl.
    + destruct (is_open _); by eexists.
    + by eexists.
    + destruct rest; by eexists.
    + by eexists.
    + rewrite bool_decide_eq_true_2 by done. by eexists.
  - apply not_all_returned in Hnot as (i & p & Hp & Hr).
    exists i. unfold step. rewrite Hp, Hm.
    assert (holds p = false) as Hh.
    { destruct (holds p) eqn:Hh; [|done].
      assert (mutex c = Some i) by (apply (inv_mutex _ _ _ _ _ Hinv); by exists p).
      congruence. }
    destruct p; try discriminate Hh; try discriminate Hr; simpl.
    + destruct (LogLevel.geb _ _); by eexists.
    + by eexists.
    + by eexists.
Qed.

Lemma run_app (this : Logger) (s1 s2 : list nat) (c c1 : config) :
  run this s1 c = Some c1 → run this (s1 ++ s2) c = run this s2 c1.
Proof.
  revert c. induction s1 as [|i s1 IH]; intros c; simpl.
  - by intros [= ->].
  - destruct (step this i c); [apply IH | done].
Qed.

Lemma run_completes (this : Logger) (calls : list error_call) (w : World) :
  is_open (logFile this) = true →
  (logLevel this ≤ LogLevel.ERROR)%Z →
  ∀ (n : nat) (written : list (nat * tm)) (c : config),
    remaining_steps c ≤ n →
    invariant this calls w written c →
    ∃ schedule c', run this schedule c = Some c' ∧ all_returned c' = true.
Proof.
  intros Hopen Hpass n. induction n as [|n IH]; intros written c Hn Hinv.
  - destruct (all_returned c) eqn:Hall; [by exists [], c|].
    destruct (step_possible _ _ _ _ _ Hinv Hall) as (i & c1 & Hstep).
    apply step_remaining in Hstep. lia.
  - destruct (all_returned c) eqn:Hall; [by exists [], c|].
    destruct (step_possible _ _ _ _ _ Hinv Hall) as (i & c1 & Hstep).
    destruct (invariant_step this calls w Hopen Hpass written c c1 i Hinv Hstep)
      as [written1 Hinv1].
    pose proof (step_remaining _ _ _ _ Hstep) as Hlt.
    destruct (IH written1 c1 ltac:(lia) Hinv1) as (schedule & c' & Hrun & Hdone).
    exists (i :: schedule), c'. simpl. by rewrite Hstep.
Qed.

(** *** What a completed run has written *)

Lemma all_returned_lookup (c : config) (i : nat) (p : pc) :
  all_returned c = true → threads c !! i = Some p → p = Returned.
Proof.
  unfold all_returned. rewrite forallb_forall. intros Hall Hp.
  assert (is_returned p = true) as Hr.
  { apply Hall, list_elem_of_In. by eapply list_elem_of_lookup_2. }
  by destruct p.
Qed.

Lemma completed_run_content (this : Logger) (calls : list error_call)
    (w : World) (written : list (nat * tm)) (c : config) :
  invariant this calls w written c →
  all_returned c = true →
  written.*1 ≡ₚ seq 0 (length calls) ∧
  mutex c = None ∧
  content (target (logFile this)) (world c) =
    content (target (logFile this)) w +:+ join (map (line_of calls) written).
Proof.
  intros Hinv Hall.
  assert (mutex c = None) as Hm.
  { destruct (mutex c) as [i|] eqn:Hm; [|done].
    apply (inv_mutex _ _ _ _ _ Hinv) in Hm as (q & Hq & Hh).
    by rewrite (all_returned_lookup _ _ _ Hall Hq) in Hh. }
  split; [|split; [done|]].
  - apply NoDup_Permutation.
    + apply (inv_nodup _ _ _ _ _ Hinv).
    + apply NoDup_seq.
    + intros i. rewrite (inv_written _ _ _ _ _ Hinv i), elem_of_seq.
      rewrite <- (inv_length _ _ _ _ _ Hinv). split.
      * intros (q & Hq & _). apply lookup_lt_Some in Hq. lia.
      * intros [_ Hlt]. apply lookup_lt_is_Some in Hlt as [q Hq].
        exists q. split; [done|].
        by rewrite (all_returned_lookup _ _ _ Hall Hq).
  - rewrite (inv_content _ _ _ _ _ Hinv). unfold holder_text.
    by rewrite Hm, string_app_nil_r.
Qed.

(** *** A thread on its own does what the function does *)

Lemma run_args (this : Logger) (message : string) (args rest : Args)
    (m : option nat) (w : World) :
  run this (replicate (S (length rest)) 0)
      (mk_config [AtArgs message args rest] m w) =
  Some (mk_config [AtEndl message args] m
          (logMessage (logFile this) rest w).2).
Proof.
  revert w. induction rest as [|value rest IH]; intros w; [reflexivity|].
  change (replicate (S (length (value :: rest))) 0)
    with (0 :: replicate (S (length rest)) 0).
  rewrite logMessage_cons.
  change (run this (replicate (S (length rest)) 0)
            (mk_config [AtArgs message args rest] m
               (insert_text (logFile this) (arg_text value) w).2) =
          Some (mk_config [AtEndl message args] m
            (logMessage (logFile this) rest
               (insert_text (logFile this) (arg_text value) w).2).2)).
  apply IH.
Qed.

Lemma log_impl_world (message : string) (args : Args) (this : Logger) (w : World) :
  (log_impl message args this w).2 =
  if is_open (logFile this)
  then (emit EvUnlock
          (endl (logFile this)
             (logMessage (logFile this) args
                (insert_text (logFile this) message (emit EvLock w).2).2).2).2).2
  else (emit EvUnlock (emit EvLock w).2).2.
Proof.
  unfold log_impl. io_unfold.
  destruct (emit EvLock w) as [[] w1]. simpl.
  destruct (is_open (logFile this)).
  - destruct (insert_text _ _ w1) as [[] w2]. simpl.
    destruct (logMessage _ _ w2) as [[] w3]. simpl.
    destruct (endl _ w3) as [[] w4]. simpl.
    by destruct (emit EvUnlock w4) as [[] w5].
  - by destruct (emit EvUnlock w1) as [[] w5].
Qed.

Lemma run_solo_step (this : Logger) (schedule : list nat) (p p' : pc)
    (m m' : option nat) (w w' : World) :
  thread_step this 0 p m w = Some (p', m', w') →
  run this (0 :: schedule) (mk_config [p] m w) =
  run this schedule (mk_config [p'] m' w').
Proof. intros H. simpl. unfold step. simpl. by rewrite H. Qed.

(** One thread alone, run to the end, leaves the world the sequential
    [log] leaves. *)
Lemma solo_run_is_log (this : Logger) (level : LogLevel.t) (file : string)
    (line : Z) (args : Args) (w : World) :
  ∃ schedule,
    run this schedule (mk_config [AtFilter level file line args] None w) =
    Some (mk_config [Returned] None (log level file line args this w).2).
Proof.
  unfold log. destruct (LogLevel.geb level (logLevel this)) eqn:Hpass.
  - io_unfold. unfold read_localtime.
    rewrite log_impl_world.
    destruct (is_open (logFile this)) eqn:Hopen.
    + exists ([0; 0; 0; 0; 0] ++ replicate (S (length args)) 0 ++ [0; 0]).
      cbn [app].
      erewrite run_solo_step by (simpl; rewrite Hpass; reflexivity).
      erewrite run_solo_step by reflexivity.
      erewrite run_solo_step by reflexivity.
      erewrite run_solo_step by (simpl; rewrite Hopen; reflexivity).
      erewrite run_solo_step by reflexivity.
      erewrite run_app by apply run_args.
      erewrite run_solo_step by reflexivity.
      erewrite run_solo_step by reflexivity.
      reflexivity.
    + exists [0; 0; 0; 0; 0].
      erewrite run_solo_step by (simpl; rewrite Hpass; reflexivity).
      erewrite run_solo_step by reflexivity.
      erewrite run_solo_step by reflexivity.
      erewrite run_solo_step by (simpl; rewrite Hopen; reflexivity).
      erewrite run_solo_step by reflexivity.
      reflexivity.
  - exists [0].
    erewrite run_solo_step by (simpl; rewrite Hpass; reflexivity).
    reflexivity.
Qed.

(** C9, as amended. N threads each issue one [error] call concurrently on
    the same logger, whose file handle is open and whose minimum level is
    at most ERROR. Whatever the interleaving of their statements, once all
    N calls have returned the file has gained exactly N lines, one per
    call, each the whole line of its call (header, parts, terminator) with
    no character of another call inside; the order of the lines is some
    permutation of the calls. Every run can be continued until all N calls
    have returned. *)
Theorem concurrent_errors_write_whole_lines (this : Logger)
    (calls : list error_call) (w : World) :
  is_open (logFile this) = true →
  (logLevel this ≤ LogLevel.ERROR)%Z →
  (∀ (schedule : list nat) (c : config),
     run this schedule (start_errors calls w) = Some c →
     all_returned c = true →
     ∃ written : list (nat * tm),
       written.*1 ≡ₚ seq 0 (length calls) ∧
       content (target (logFile this)) (world c) =
         content (target (logFile this)) w +:+
         join (map (line_of calls) written)) ∧
  (∀ (schedule : list nat) (c : config),
     run this schedule (start_errors calls w) = Some c →
     ∃ (rest : list nat) (c' : config),
       run this rest c = Some c' ∧ all_returned c' = true).
Proof.
  intros Hopen Hpass. split.
  - intros schedule c Hrun Hall.
    destruct (invariant_run this calls w Hopen Hpass schedule [] _ c
                (invariant_start this calls w) Hrun) as [written Hinv].
    exists written.
    by destruct (completed_run_content _ _ _ _ _ Hinv Hall) as (? & _ & ?).
  - intros schedule c Hrun.
    destruct (invariant_run this calls w Hopen Hpass schedule [] _ c
                (invariant_start this calls w) Hrun) as [written Hinv].
    by apply (run_completes this calls w Hopen Hpass (remaining_steps c) written c).
Qed.

(** Two threads on an open logger under the schedule [interleaved]. *)
Lemma concurrent_errors_write_whole_lines_witness :
  ∃ (c : config) (written : list (nat * tm)),
    run open_logger interleaved (start_errors two_calls open_world) = Some c ∧
    written.*1 ≡ₚ seq 0 (length two_calls) ∧
    content (target (logFile open_logger)) (world c) =
      content (target (logFile open_logger)) open_world +:+
      join (map (line_of two_calls) written).
Proof.
  assert (∃ c, run open_logger interleaved (start_errors two_calls open_world)
                 = Some c ∧ all_returned c = true) as (c & Hrun & Hall).
  { eexists. split; vm_compute; reflexivity. }
  destruct (proj1 (concurrent_errors_write_whole_lines open_logger two_calls
                     open_world eq_refl ltac:(vm_compute; discriminate))
              interleaved c Hrun Hall) as [written H].
  exists c, written. split; [exact Hrun | exact H].
Defined.

(** C9 as it was stated fails on a logger whose handle is not open: two
    threads each complete one [error] call and the file system is as it
    was before, no line was added. *)
Lemma concurrent_errors_on_closed_handle_write_nothing :
  ∃ c : config,
    run closed_logger interleaved_closed (start_errors two_calls closed_world)
      = Some c ∧
    all_returned c = true ∧
    files (world c) = files closed_world.
Proof.
  eexists. split; [vm_compute; reflexivity|].
  split; vm_compute; reflexivity.
Qed.

(** * Further properties of the code *)

(** ** What one call does to the trace and to the clock *)

Lemma log_trace (level : LogLevel.t) (file : string) (line : Z)
    (args : Args) (this : Logger) (w : World) :
  trace (log level file line args this w).2 =
  trace w ++
  (if LogLevel.geb level (logLevel this)
   then if is_open (logFile this)
        then line_events
               (header (localtime w (clock_reads w)) level file line) args
        else [EvLock; EvUnlock]
   else []).
Proof.
  destruct (LogLevel.geb level (logLevel this)) eqn:Hpass.
  - destruct (is_open (logFile this)) eqn:Hopen.
    + by destruct (log_passed_open level file line args this w Hpass Hopen)
        as (_ & _ & _ & _ & _ & _ & Ht).
    + by rewrite log_passed_closed.
  - rewrite log_filtered by done. by rewrite app_nil_r.
Qed.

Lemma log_clock (level : LogLevel.t) (file : string) (line : Z)
    (args : Args) (this : Logger) (w : World) :
  localtime (log level file line args this w).2 = localtime w ∧
  clock_reads (log level file line args this w).2 =
  clock_reads w + (if LogLevel.geb level (logLevel this) then 1 else 0).
Proof.
  destruct (LogLevel.geb level (logLevel this)) eqn:Hpass.
  - destruct (is_open (logFile this)) eqn:Hopen.
    + destruct (log_passed_open level file line args this w Hpass Hopen)
        as (_ & _ & _ & _ & Hl & Hr & _). done.
    + rewrite log_passed_closed by done. simpl. split; [done|].
      by rewrite Nat.add_1_r.
  - rewrite log_filtered by done. simpl. split; [done|].
    by rewrite Nat.add_0_r.
Qed.

Lemma lock_discipline_app (held : bool) (xs ys : list event) :
  lock_discipline held (xs ++ ys) =
  match lock_discipline held xs with
  | Some held' => lock_discipline held' ys
  | None => None
  end.
Proof.
  revert held. induction xs as [|e xs IH]; intros held; [done|].
  destruct e, held; simpl; try done; apply IH.
Qed.

Lemma lock_discipline_insertions (args : Args) :
  lock_discipline true (map (λ a, EvInsert (arg_text a)) args) = Some true.
Proof. induction args as [|a rest IH]; [done|]. simpl. exact IH. Qed.

Lemma lock_discipline_line (message : string) (args : Args) :
  lock_discipline false (line_events message args) = Some false.
Proof.
  unfold line_events. simpl.
  by rewrite lock_discipline_app, lock_discipline_insertions.
Qed.

(** X1. No sequence of calls, on an open or a closed handle, rewrites what
    a file already holds: the earlier content of every file is kept as a
    prefix of the later one, files other than the one the handle is
    attached to are exactly as before, and nothing goes to [std::cerr]. *)
Theorem calls_keep_existing_bytes (cs : list call) (this : Logger) (w : World) :
  (∀ q : string,
     ∃ added : string,
       content q (run_calls cs this w).2 = content q w +:+ added) ∧
  (∀ q : string,
     q ≠ target (logFile this) →
     files (run_calls cs this w).2 !! q = files w !! q) ∧
  cerr (run_calls cs this w).2 = cerr w ∧
  unopenable (run_calls cs this w).2 = unopenable w.
Proof.
  destruct (is_open (logFile this)) eqn:Hopen.
  - destruct (run_calls_open cs this w Hopen)
      as [evs (Hc & Hf & Hu & He & _)].
    split; [|done]. intros q.
    destruct (decide (q = target (logFile this))) as [->|Hq].
    + by eexists.
    + exists "". unfold content. by rewrite (Hf q Hq), string_app_nil_r.
  - destruct (run_calls_closed cs this w Hopen) as (Hf & He & Hu).
    split; [|by rewrite Hf]. intros q. exists "".
    unfold content. by rewrite Hf, string_app_nil_r.
Qed.

(** X2. Over any sequence of calls the mutex is used in a disciplined way:
    it is never taken while held, every insertion into the file happens
    while it is held, and it is free again when the last call has
    returned. *)
Theorem calls_follow_lock_discipline (cs : list call) (this : Logger) (w : World) :
  ∃ evs : list event,
    trace (run_calls cs this w).2 = trace w ++ evs ∧
    lock_discipline false evs = Some false.
Proof.
  revert this w. induction cs as [|c rest IH]; intros this w.
  - exists []. by rewrite app_nil_r.
  - rewrite run_calls_cons. destruct c as [e file line args|level]; simpl.
    + rewrite call_entry_log, log_this.
      destruct (IH this (log (entry_level e) file line args this w).2)
        as (evs & Ht & Hd).
      rewrite log_trace in Ht. eexists. split.
      * rewrite Ht, <- app_assoc. reflexivity.
      * rewrite lock_discipline_app.
        destruct (LogLevel.geb _ _); [|exact Hd].
        destruct (is_open _); [|exact Hd].
        by rewrite lock_discipline_line.
    + apply IH.
Qed.

(** X3. A closed handle is silent but not free of work. Whatever the state
    of the handle, every call that passes the filter reads the clock once
    and no other call reads it; on a closed handle each such call still
    takes and releases the mutex, and that is all the calls do. *)
Theorem passing_calls_read_the_clock (cs : list call) (this : Logger) (w : World) :
  localtime (run_calls cs this w).2 = localtime w ∧
  clock_reads (run_calls cs this w).2 =
    clock_reads w + passing_calls cs (logLevel this) ∧
  (is_open (logFile this) = false →
   trace (run_calls cs this w).2 =
     trace w ++
     concat (replicate (passing_calls cs (logLevel this)) [EvLock; EvUnlock])).
Proof.
  revert this w. induction cs as [|c rest IH]; intros this w.
  - simpl. split; [done|]. split; [lia|]. intros _. by rewrite app_nil_r.
  - rewrite run_calls_cons. destruct c as [e file line args|level]; simpl.
    + rewrite call_entry_log, log_this.
      destruct (IH this (log (entry_level e) file line args this w).2)
        as (Hl & Hr & Ht).
      destruct (log_clock (entry_level e) file line args this w) as [Hl1 Hr1].
      split; [congruence|]. split; [lia|].
      intros Hclosed. rewrite (Ht Hclosed), log_trace, Hclosed.
      destruct (LogLevel.geb _ _); simpl.
      * by rewrite <- app_assoc.
      * by rewrite app_nil_r.
    + apply (IH (mk_Logger level (logFileName this) (logFile this)) w).
Qed.

Lemma passing_calls_read_the_clock_witness :
  trace (run_calls [CallLog ViaDebug "a.cpp" 1%Z [arg "dropped"];
                    CallLog ViaError "a.cpp" 2%Z [arg "lost"]]
           closed_logger closed_world).2 =
  trace closed_world ++
  concat (replicate
            (passing_calls [CallLog ViaDebug "a.cpp" 1%Z [arg "dropped"];
                            CallLog ViaError "a.cpp" 2%Z [arg "lost"]]
               (logLevel closed_logger))
            [EvLock; EvUnlock]).
Proof.
  refine (proj2 (proj2 (passing_calls_read_the_clock _ closed_logger closed_world)) _).
  reflexivity.
Defined.

(** X4. No call opens, closes or retargets the handle and none changes the
    stored file name: a logger whose file could not be opened stays closed
    for good. The minimum level after a sequence of calls is the one of
    the last [setLogLevel] in it, or the earlier one when there is none;
    logging calls never change it. *)
Theorem calls_keep_handle_and_last_level_wins (cs : list call)
    (this : Logger) (w : World) :
  logFile (run_calls cs this w).1 = logFile this ∧
  logFileName (run_calls cs this w).1 = logFileName this ∧
  logLevel (run_calls cs this w).1 = final_level cs (logLevel this).
Proof.
  destruct (run_calls_logFile cs this w) as [Hf Hn].
  split; [done|]. split; [done|].
  clear Hf Hn. revert this w. induction cs as [|c rest IH]; intros this w; [done|].
  rewrite run_calls_cons. destruct c as [e file line args|level]; simpl.
  - rewrite call_entry_log, log_this. apply IH.
  - apply (IH (mk_Logger level (logFileName this) (logFile this)) w).
Qed.

(** ** Names, time stamps, construction *)

(** X5. The name of a level is empty exactly for the values that are not
    enumerators, and the four enumerators have four different names: the
    level of a line can be read back from its tag. *)
Theorem level_names_identify_levels :
  (∀ level : LogLevel.t,
     logLevelToString level = "" ↔ LogLevel.is_enumerator level = false) ∧
  (∀ a b : LogLevel.t,
     LogLevel.is_enumerator a = true →
     logLevelToString a = logLevelToString b → a = b).
Proof.
  assert (∀ level : LogLevel.t,
            LogLevel.is_enumerator level = true →
            level = 0%Z ∨ level = 1%Z ∨ level = 2%Z ∨ level = 3%Z) as Henum.
  { intros level H. unfold LogLevel.is_enumerator in H.
    apply bool_decide_eq_true in H.
    unfold LogLevel.enumerators, LogLevel.DEBUG, LogLevel.INFO,
      LogLevel.WARNING, LogLevel.ERROR in H.
    rewrite !elem_of_cons, elem_of_nil in H. tauto. }
  assert (∀ level : LogLevel.t,
            logLevelToString level = "" ↔ LogLevel.is_enumerator level = false)
    as Hempty.
  { intros level. split.
    - intros Hname. destruct (LogLevel.is_enumerator level) eqn:E; [|done].
      by destruct (Henum level E) as [-> | [-> | [-> | ->]]].
    - intros Hout. unfold LogLevel.is_enumerator in Hout.
      apply bool_decide_eq_false in Hout.
      unfold LogLevel.enumerators, LogLevel.DEBUG, LogLevel.INFO,
        LogLevel.WARNING, LogLevel.ERROR in Hout.
      rewrite !elem_of_cons, elem_of_nil in Hout.
      unfold logLevelToString.
      repeat case_match; try reflexivity; exfalso; apply Hout; subst; tauto. }
  split; [exact Hempty|].
  intros a b Ha Hab.
  destruct (LogLevel.is_enumerator b) eqn:Hb.
  - destruct (Henum a Ha) as [-> | [-> | [-> | ->]]];
      destruct (Henum b Hb) as [-> | [-> | [-> | ->]]]; done.
  - apply Hempty in Hb. rewrite Hb in Hab.
    by destruct (Henum a Ha) as [-> | [-> | [-> | ->]]].
Qed.

Lemma level_names_identify_levels_witness :
  LogLevel.WARNING = 2%Z.
Proof.
  refine (proj2 level_names_identify_levels LogLevel.WARNING 2%Z _ _).
  - vm_compute. reflexivity.
  - reflexivity.
Defined.

Lemma pad2_injective_range :
  forallb (λ n, forallb (λ m, implb (String.eqb (pad2 n) (pad2 m)) (n =? m)%Z)
                        (seqZ 0 100))
          (seqZ 0 100) = true.
Proof. vm_compute. reflexivity. Qed.

Lemma pad2_injective (n m : Z) :
  (0 ≤ n ≤ 99)%Z → (0 ≤ m ≤ 99)%Z → pad2 n = pad2 m → n = m.
Proof.
  intros Hn Hm Heq. pose proof pad2_injective_range as H.
  rewrite forallb_forall in H.
  specialize (H n ltac:(apply list_elem_of_In, elem_of_seqZ; lia)).
  rewrite forallb_forall in H.
  specialize (H m ltac:(apply list_elem_of_In, elem_of_seqZ; lia)).
  rewrite Heq, String.eqb_refl in H. simpl in H. by apply Z.eqb_eq.
Qed.

(** X6. On calendar dates [put_time] loses nothing: two broken-down times
    with the same time stamp are the same, field by field. *)
Theorem put_time_injective (t1 t2 : tm) :
  calendar_tm t1 → calendar_tm t2 → put_time t1 = put_time t2 → t1 = t2.
Proof.
  intros (Hs1 & Hm1 & Hh1 & Hd1 & Hmo1 & Hy1) (Hs2 & Hm2 & Hh2 & Hd2 & Hmo2 & Hy2).
  unfold put_time.
  destruct (four_digits_inv _ (pretty_four_digits (1900 + tm_year t1) Hy1))
    as (? & ? & ? & ? & Ey1 & _).
  destruct (four_digits_inv _ (pretty_four_digits (1900 + tm_year t2) Hy2))
    as (? & ? & ? & ? & Ey2 & _).
  destruct (two_digits_inv _ (pad2_two_digits (tm_mon t1 + 1) ltac:(lia)))
    as (? & ? & Em1 & _).
  destruct (two_digits_inv _ (pad2_two_digits (tm_mon t2 + 1) ltac:(lia)))
    as (? & ? & Em2 & _).
  destruct (two_digits_inv _ (pad2_two_digits (tm_mday t1) ltac:(lia)))
    as (? & ? & Ed1 & _).
  destruct (two_digits_inv _ (pad2_two_digits (tm_mday t2) ltac:(lia)))
    as (? & ? & Ed2 & _).
  destruct (two_digits_inv _ (pad2_two_digits (tm_hour t1) ltac:(lia)))
    as (? & ? & Eh1 & _).
  destruct (two_digits_inv _ (pad2_two_digits (tm_hour t2) ltac:(lia)))
    as (? & ? & Eh2 & _).
  destruct (two_digits_inv _ (pad2_two_digits (tm_min t1) ltac:(lia)))
    as (? & ? & En1 & _).
  destruct (two_digits_inv _ (pad2_two_digits (tm_min t2) ltac:(lia)))
    as (? & ? & En2 & _).
  destruct (two_digits_inv _ (pad2_two_digits (tm_sec t1) ltac:(lia)))
    as (? & ? & Ec1 & _).
  destruct (two_digits_inv _ (pad2_two_digits (tm_sec t2) ltac:(lia)))
    as (? & ? & Ec2 & _).
  intros Heq.
  assert (pretty (1900 + tm_year t1)%Z = pretty (1900 + tm_year t2)%Z ∧
          pad2 (tm_mon t1 + 1) = pad2 (tm_mon t2 + 1) ∧
          pad2 (tm_mday t1) = pad2 (tm_mday t2) ∧
          pad2 (tm_hour t1) = pad2 (tm_hour t2) ∧
          pad2 (tm_min t1) = pad2 (tm_min t2) ∧
          pad2 (tm_sec t1) = pad2 (tm_sec t2)) as (Hy & Hmo & Hd & Hh & Hm & Hs).
  { rewrite Ey1, Ey2, Em1, Em2, Ed1, Ed2, Eh1, Eh2, En1, En2, Ec1, Ec2 in Heq |- *.
    cbv [String.append] in Heq. by simplify_eq. }
  apply (inj pretty) in Hy.
  apply pad2_injective in Hmo; [|lia..].
  apply pad2_injective in Hd; [|lia..].
  apply pad2_injective in Hh; [|lia..].
  apply pad2_injective in Hm; [|lia..].
  apply pad2_injective in Hs; [|lia..].
  destruct t1, t2; simpl in *. f_equal; lia.
Qed.

Lemma put_time_injective_witness : ticking 0 = t0.
Proof.
  refine (put_time_injective (ticking 0) t0 _ _ _).
  - unfold calendar_tm. simpl. lia.
  - unfold calendar_tm. simpl. lia.
  - vm_compute. reflexivity.
Defined.

(** X8. With the default level of the constructor, INFO, a fresh logger
    on an openable path drops [debug] calls without any effect and emits
    the line of every [info], [warning] and [error] call. *)
Theorem default_level_drops_debug_only (name file : string) (line : Z)
    (args : Args) (w : World) :
  name ∉ unopenable w →
  debug file line args (Logger_ctor_default name w).1 (Logger_ctor_default name w).2 =
    ((Logger_ctor_default name w).1, (Logger_ctor_default name w).2) ∧
  ∀ e : entry,
    e = ViaInfo ∨ e = ViaWarning ∨ e = ViaError →
    content name
      (call_entry e file line args
         (Logger_ctor_default name w).1 (Logger_ctor_default name w).2).2 =
    content name w +:+
    log_line (localtime w (clock_reads w)) (entry_level e) file line args.
Proof.
  intros Hok. unfold Logger_ctor_default.
  destruct (Logger_ctor_openable name LogLevel.INFO w Hok)
    as [Hlg (Hc & _ & _ & _ & Hl & Hr & _)].
  rewrite Hlg. split.
  - by apply log_filtered.
  - intros e He. rewrite call_entry_log.
    assert (LogLevel.geb (entry_level e) LogLevel.INFO = true) as Hpass.
    { by destruct He as [-> | [-> | ->]]. }
    destruct (log_passed_open (entry_level e) file line args
                (mk_Logger LogLevel.INFO name (mk_ofstream true name))
                (Logger_ctor name LogLevel.INFO w).2 Hpass eq_refl) as (Hc2 & _).
    simpl in Hc2. rewrite Hc2, Hc, Hl, Hr, Nat.add_0_r.
    by rewrite string_app_nil_r.
Qed.

Lemma default_level_drops_debug_only_witness :
  debug "main.cpp" 1%Z [arg "Debug message."]
    (Logger_ctor_default "my_log.txt" w0).1 (Logger_ctor_default "my_log.txt" w0).2 =
  ((Logger_ctor_default "my_log.txt" w0).1, (Logger_ctor_default "my_log.txt" w0).2).
Proof.
  refine (proj1 (default_level_drops_debug_only "my_log.txt" "main.cpp" 1%Z
                   [arg "Debug message."] w0 _)).
  vm_compute. discriminate.
Defined.

(** X9. Inserting a pack that is two packs one after the other is
    inserting the first and then the second: the world after
    [logMessage] on [xs ++ ys] is the one after [logMessage] on [ys]
    started where [logMessage] on [xs] ended. *)
Theorem logMessage_app (stream : ofstream) (xs ys : Args) (w : World) :
  logMessage stream (xs ++ ys) w =
  logMessage stream ys (logMessage stream xs w).2.
Proof.
  revert w. induction xs as [|a xs IH]; intros w; [done|].
  rewrite <- app_comm_cons, !logMessage_cons. apply IH.
Qed.

(** ** Further properties of concurrent runs *)

Lemma mutex_ok_step (this : Logger) (i : nat) (c c' : config) :
  mutex_ok c → step this i c = Some c' → mutex_ok c'.
Proof.
  unfold mutex_ok. intros Hok Hstep. unfold step in Hstep.
  destruct (threads c !! i) as [p|] eqn:Hp; [|done].
  assert (∀ p', holds p' = holds p →
            ∀ j, mutex c = Some j ↔ at_pc holds (<[i := p']> (threads c)) j)
    as Hsame.
  { intros p' Hh j. rewrite Hok. symmetry.
    by apply (at_pc_insert_same holds _ _ p). }
  destruct p as [level file line args|level file line args|message args
                |message args|message args|message args rest|message args
                |message args|]; simpl in Hstep.
  - destruct (LogLevel.geb _ _); injection Hstep as <-; simpl;
      by apply Hsame.
  - injection Hstep as <-. simpl. by apply Hsame.
  - destruct (mutex c) eqn:Hm; [done|]. injection Hstep as <-. simpl.
    intros j.
    rewrite (at_pc_insert_true holds _ _ _ (AtGuard message args) Hp eq_refl).
    split; [intros [= ->]; by left|].
    intros [->|Hj]; [done|]. apply Hok in Hj. congruence.
  - destruct (is_open _); injection Hstep as <-; simpl; by apply Hsame.
  - injection Hstep as <-. simpl. by apply Hsame.
  - destruct rest; injection Hstep as <-; simpl; by apply Hsame.
  - injection Hstep as <-. simpl. by apply Hsame.
  - case_bool_decide as Hm; [|done]. injection Hstep as <-. simpl.
    intros j.
    rewrite (at_pc_insert_false holds _ _ _ Returned Hp eq_refl).
    split; [done|]. intros [Hne Hj]. apply Hok in Hj. congruence.
  - done.
Qed.

Lemma mutex_ok_run (this : Logger) (schedule : list nat) (c c' : config) :
  mutex_ok c → run this schedule c = Some c' → mutex_ok c'.
Proof.
  revert c. induction schedule as [|i rest IH]; intros c Hok Hrun.
  - by injection Hrun as <-.
  - simpl in Hrun. destruct (step this i c) as [c1|] eqn:Hstep; [|done].
    eapply IH; [|done]. by eapply mutex_ok_step.
Qed.

Lemma mutex_ok_start (calls : list error_call) (w : World) :
  mutex_ok (start_errors calls w).
Proof.
  intros i. simpl. split; [done|]. intros (q & Hq & Hh).
  rewrite list_lookup_fmap in Hq. destruct (calls !! i); [|done].
  by injection Hq as <-.
Qed.

(** X11. Mutual exclusion. In every state a concurrent run can reach,
    whatever the logger and the schedule, a thread that is inside the
    critical section of the private [log] is the one holding the mutex,
    so two different threads are never inside it together. *)
Theorem critical_section_is_exclusive (this : Logger) (calls : list error_call)
    (w : World) (schedule : list nat) (c : config) :
  run this schedule (start_errors calls w) = Some c →
  (∀ (i : nat) (p : pc),
     threads c !! i = Some p → holds p = true → mutex c = Some i) ∧
  (∀ (i j : nat) (p q : pc),
     threads c !! i = Some p → threads c !! j = Some q →
     holds p = true → holds q = true → i = j).
Proof.
  intros Hrun.
  pose proof (mutex_ok_run this schedule _ c (mutex_ok_start calls w) Hrun) as Hok.
  assert (∀ i p, threads c !! i = Some p → holds p = true → mutex c = Some i)
    as Hholder.
  { intros i p Hp Hh. apply Hok. by exists p. }
  split; [exact Hholder|].
  intros i j p q Hp Hq Hhp Hhq.
  pose proof (Hholder i p Hp Hhp). pose proof (Hholder j q Hq Hhq). congruence.
Qed.

Lemma critical_section_is_exclusive_witness :
  ∃ c : config,
    run open_logger [0; 0; 0; 0; 1; 1]
        (start_errors two_calls open_world) = Some c ∧
    mutex c = Some 0.
Proof.
  assert (∃ c p,
            run open_logger [0; 0; 0; 0; 1; 1]
                (start_errors two_calls open_world) = Some c ∧
            threads c !! 0 = Some p ∧ holds p = true) as (c & p & Hrun & Hp & Hh).
  { eexists. eexists. split; [vm_compute; reflexivity|].
    split; vm_compute; reflexivity. }
  exists c. split; [exact Hrun|].
  exact (proj1 (critical_section_is_exclusive open_logger two_calls open_world
                  _ c Hrun) 0 p Hp Hh).
Defined.

Lemma run_remaining (this : Logger) (schedule : list nat) (c c' : config) :
  run this schedule c = Some c' →
  length schedule + remaining_steps c' ≤ remaining_steps c.
Proof.
  revert c. induction schedule as [|i rest IH]; intros c Hrun.
  - injection Hrun as <-. simpl. lia.
  - simpl in Hrun. destruct (step this i c) as [c1|] eqn:Hstep; [|done].
    apply step_remaining in Hstep. specialize (IH c1 Hrun). simpl. lia.
Qed.

Lemma remaining_start (calls : list error_call) (w : World) :
  remaining_steps (start_errors calls w) =
  sum_list (map (λ call, length (call_args call) + 8) calls).
Proof.
  unfold remaining_steps, start_errors. simpl.
  induction calls as [|call rest IH]; [done|].
  simpl. rewrite IH. reflexivity.
Qed.

(** X12. Bounded work. A call with n message parts takes at most n + 8
    steps, so no run of N concurrent [error] calls, complete or not, is
    longer than the sum of these bounds: no thread spins or retries. *)
Theorem concurrent_run_is_bounded (this : Logger) (calls : list error_call)
    (w : World) (schedule : list nat) (c : config) :
  run this schedule (start_errors calls w) = Some c →
  length schedule + remaining_steps c ≤
  sum_list (map (λ call, length (call_args call) + 8) calls).
Proof.
  intros Hrun. apply run_remaining in Hrun.
  by rewrite remaining_start in Hrun.
Qed.

Lemma concurrent_run_is_bounded_witness :
  ∃ c : config,
    run open_logger interleaved (start_errors two_calls open_world) = Some c ∧
    length interleaved + remaining_steps c ≤
    sum_list (map (λ call, length (call_args call) + 8) two_calls).
Proof.
  assert (∃ c, run open_logger interleaved (start_errors two_calls open_world)
                 = Some c) as (c & Hrun).
  { eexists. vm_compute. reflexivity. }
  exists c. split; [exact Hrun|].
  exact (concurrent_run_is_bounded open_logger two_calls open_world
           interleaved c Hrun).
Defined.

(** X13. No torn line is visible while the mutex is free. On an open
    handle, in every state a run of concurrent [error] calls can reach in
    which no thread holds the mutex, the file is its earlier content
    followed by whole lines only, each the complete line of a different
    call. *)
Theorem file_holds_whole_lines_when_mutex_free (this : Logger)
    (calls : list error_call) (w : World) (schedule : list nat) (c : config) :
  is_open (logFile this) = true →
  (logLevel this ≤ LogLevel.ERROR)%Z →
  run this schedule (start_errors calls w) = Some c →
  mutex c = None →
  ∃ written : list (nat * tm),
    NoDup written.*1 ∧
    (∀ i, i ∈ written.*1 → i < length calls) ∧
    content (target (logFile this)) (world c) =
      content (target (logFile this)) w +:+ join (map (line_of calls) written).
Proof.
  intros Hopen Hpass Hrun Hfree.
  destruct (invariant_run this calls w Hopen Hpass schedule [] _ c
              (invariant_start this calls w) Hrun) as [written Hinv].
  exists written. split; [apply (inv_nodup _ _ _ _ _ Hinv)|]. split.
  - intros i Hi. apply (inv_written _ _ _ _ _ Hinv) in Hi as (q & Hq & _).
    apply lookup_lt_Some in Hq. by rewrite <- (inv_length _ _ _ _ _ Hinv).
  - rewrite (inv_content _ _ _ _ _ Hinv). unfold holder_text.
    by rewrite Hfree, string_app_nil_r.
Qed.

Lemma file_holds_whole_lines_when_mutex_free_witness :
  ∃ (c : config) (written : list (nat * tm)),
    run open_logger [0; 1; 0; 0; 0; 0; 0; 0; 0; 0; 0; 0; 1]
        (start_errors two_calls open_world) = Some c ∧
    content (target (logFile open_logger)) (world c) =
      content (target (logFile open_logger)) open_world +:+
      join (map (line_of two_calls) written).
Proof.
  assert (∃ c,
            run open_logger [0; 1; 0; 0; 0; 0; 0; 0; 0; 0; 0; 0; 1]
                (start_errors two_calls open_world) = Some c ∧
            mutex c = None) as (c & Hrun & Hfree).
  { eexists. split; vm_compute; reflexivity. }
  destruct (file_holds_whole_lines_when_mutex_free open_logger two_calls
              open_world _ c eq_refl ltac:(vm_compute; discriminate) Hrun Hfree)
    as (written & _ & _ & Hc).
  exists c, written. split; [exact Hrun | exact Hc].
Defined.

Lemma thread_step_closed (this : Logger) (i : nat) (p p' : pc)
    (m m' : option nat) (w w' : World) :
  is_open (logFile this) = false →
  thread_step this i p m w = Some (p', m', w') →
  files w' = files w ∧ cerr w' = cerr w.
Proof.
  intros Hclosed.
  destruct p as [level file line args|level file line args|message args
                |message args|message args|message args rest|message args
                |message args|]; simpl; intros Hstep.
  - by destruct (LogLevel.geb _ _); injection Hstep as _ _ <-.
  - by injection Hstep as _ _ <-.
  - destruct m; [done|]. by injection Hstep as _ _ <-.
  - rewrite Hclosed in Hstep. by injection Hstep as _ _ <-.
  - injection Hstep as _ _ <-. unfold insert_text, emit. io_unfold.
    by rewrite Hclosed.
  - destruct rest; injection Hstep as _ _ <-; [done|].
    unfold insert_text, emit. io_unfold. by rewrite Hclosed.
  - injection Hstep as _ _ <-. unfold endl, emit. io_unfold.
    by rewrite Hclosed.
  - case_bool_decide; [|done]. by injection Hstep as _ _ <-.
  - done.
Qed.

(** X14. On a closed handle concurrency changes nothing: from any state,
    under any schedule and for any number of threads, no step of any
    thread changes a file or writes to [std::cerr]. *)
Theorem concurrent_calls_on_closed_handle_write_nothing (this : Logger)
    (schedule : list nat) (c c' : config) :
  is_open (logFile this) = false →
  run this schedule c = Some c' →
  files (world c') = files (world c) ∧ cerr (world c') = cerr (world c).
Proof.
  intros Hclosed. revert c. induction schedule as [|i rest IH]; intros c Hrun.
  - by injection Hrun as <-.
  - simpl in Hrun. destruct (step this i c) as [c1|] eqn:Hstep; [|done].
    destruct (IH c1 Hrun) as [-> ->].
    unfold step in Hstep.
    destruct (threads c !! i) as [p|]; [|done].
    destruct (thread_step this i p (mutex c) (world c))
      as [[[p' m'] w']|] eqn:Ht; [|done].
    injection Hstep as <-. simpl.
    by apply (thread_step_closed this i p p' (mutex c) m').
Qed.

Lemma concurrent_calls_on_closed_handle_write_nothing_witness :
  ∃ c : config,
    run closed_logger interleaved_closed
        (start_errors two_calls closed_world) = Some c ∧
    files (world c) = files (world (start_errors two_calls closed_world)).
Proof.
  assert (∃ c, run closed_logger interleaved_closed
                 (start_errors two_calls closed_world) = Some c) as (c & Hrun).
  { eexists. vm_compute. reflexivity. }
  exists c. split; [exact Hrun|].
  exact (proj1 (concurrent_calls_on_closed_handle_write_nothing closed_logger
                  interleaved_closed _ c eq_refl Hrun)).
Defined.
